(** * StatefulSet control loop (pkg/controller/statefulset/stateful_set_control.go)

    A shallow embedding of [defaultStatefulSetControl]: the revision manager
    ([getStatefulSetRevisions]), the driver ([updateStatefulSet]), the status
    publisher ([updateStatefulSetStatus]), the history truncator
    ([truncateHistory]), the adoption of orphans ([AdoptOrphanRevisions]) and
    the entry point ([UpdateStatefulSet]).

    The collaborators (pod control, revision history, status updater, event
    recorder) are interfaces in the source.  Every call made through them is
    appended to a log, and an oracle decides, from the calls already issued
    and the call at hand, whether the call returns a non-nil error. *)

From Stdlib Require Import ZArith List String Bool Lia Sorted.
Import ListNotations.

Open Scope string_scope.
Open Scope list_scope.
Open Scope Z_scope.

(** ** Machine integers *)

(** Go's [int32] arithmetic wraps around (two's complement). *)
Definition wrap32 (x : Z) : Z := (x + 2147483648) mod 4294967296 - 2147483648.
Definition wrap64 (x : Z) : Z :=
  (x + 9223372036854775808) mod 18446744073709551616 - 9223372036854775808.

Definition inc32 (x : Z) : Z := wrap32 (x + 1).
Definition dec32 (x : Z) : Z := wrap32 (x - 1).

(** Go slice indexing [l[i]]: out of range is a run-time panic, here [None]. *)
Definition index {A : Type} (l : list A) (i : Z) : option A :=
  if i <? 0 then None else nth_error l (Z.to_nat i).

Definition len {A : Type} (l : list A) : Z := Z.of_nat (List.length l).

(** ** Data model *)

(** The encoded pod template of a set. *)
Definition Template := string.

(** [apps.ControllerRevision]: name, Revision number, creation time and the
    raw data.  [rev_data = None] stands for a payload that cannot be decoded
    into a template, the case in which [ApplyRevision] returns an error. *)
Record ControllerRevision := mkRevision {
  rev_name : string;
  rev_revision : Z;
  rev_created : Z;
  rev_data : option Template
}.

(** [v1.PodPhase]; [PhaseNone] is the empty phase of a pod object that has
    not been created on the platform. *)
Inductive PodPhase :=
| PhaseNone | PodPending | PodRunning | PodSucceeded | PodFailed | PodUnknown.

(** [v1.Pod], restricted to what the control loop reads. *)
Record Pod := mkPod {
  pod_ordinal : Z;            (* the ordinal suffix of the pod's name *)
  pod_revision : string;      (* the controller-revision-hash label *)
  pod_phase : PodPhase;
  pod_ready : bool;           (* the Ready condition *)
  pod_deleting : bool;        (* DeletionTimestamp != nil *)
  pod_identity_ok : bool;     (* name, namespace and hostname label fit the set *)
  pod_storage_ok : bool       (* volumes fit the set's claim templates *)
}.

Inductive StrategyType := RollingUpdateStatefulSetStrategyType | OnDeleteStatefulSetStrategyType.

(** [apps.StatefulSetUpdateStrategy]: [us_rollingUpdate] is the optional
    [RollingUpdate] struct, reduced to its [Partition]. *)
Record UpdateStrategy := mkStrategy {
  us_type : StrategyType;
  us_rollingUpdate : option Z
}.

(** [apps.StatefulSetStatus]. *)
Record StatefulSetStatus := mkStatus {
  ObservedGeneration : Z;
  Replicas : Z;
  ReadyReplicas : Z;
  CurrentReplicas : Z;
  UpdatedReplicas : Z;
  CurrentRevision : string;
  UpdateRevision : string;
  CollisionCount : option Z
}.

(** [apps.StatefulSet]. *)
Record StatefulSet := mkSet {
  set_name : string;
  set_generation : Z;
  set_deleting : bool;              (* DeletionTimestamp != nil *)
  set_selector_ok : bool;           (* Spec.Selector converts to a selector *)
  set_replicas : Z;                 (* *Spec.Replicas *)
  set_template : Template;          (* Spec.Template *)
  set_strategy : UpdateStrategy;    (* Spec.UpdateStrategy *)
  set_historyLimit : Z;             (* *Spec.RevisionHistoryLimit *)
  set_status : StatefulSetStatus    (* the last published status *)
}.

Definition StrategyType_eqb (a b : StrategyType) : bool :=
  match a, b with
  | RollingUpdateStatefulSetStrategyType, RollingUpdateStatefulSetStrategyType => true
  | OnDeleteStatefulSetStrategyType, OnDeleteStatefulSetStrategyType => true
  | _, _ => false
  end.

Definition option_eqb {A : Type} (eqb : A -> A -> bool) (a b : option A) : bool :=
  match a, b with
  | Some x, Some y => eqb x y
  | None, None => true
  | _, _ => false
  end.

(** ** Calls through the collaborator interfaces *)

Inductive Call :=
| CreateStatefulPod (pod : Pod)
| UpdateStatefulPod (pod : Pod)
| DeleteStatefulPod (pod : Pod)
| Eventf (reason : string) (pod : Pod)
| ListControllerRevisions
| CreateControllerRevision (revision : ControllerRevision)
| UpdateControllerRevision (revision : ControllerRevision) (newRevision : Z)
| DeleteControllerRevision (revision : ControllerRevision)
| UpdateStatefulSetStatus (status : StatefulSetStatus).

Inductive error :=
| CallFailed (c : Call)
| InvalidSelector
| UndecodableRevision (revision : ControllerRevision)
| TooManyCollisions.

(** The platform as the control loop sees it: the revision store and the
    log of the calls issued so far (oldest first, failed calls included). *)
Record World := mkWorld {
  w_store : list ControllerRevision;
  w_log : list Call
}.

Definition logCall (c : Call) (w : World) : World :=
  {| w_store := w_store w; w_log := w_log w ++ [c] |}.

Definition setStore (s : list ControllerRevision) (w : World) : World :=
  {| w_store := s; w_log := w_log w |}.

(** The calls of a log by kind. *)
Definition deletedPods (l : list Call) : list Pod :=
  flat_map (fun c => match c with DeleteStatefulPod p => [p] | _ => [] end) l.

Definition createdPods (l : list Call) : list Pod :=
  flat_map (fun c => match c with CreateStatefulPod p => [p] | _ => [] end) l.

Definition statusWrites (l : list Call) : list StatefulSetStatus :=
  flat_map (fun c => match c with UpdateStatefulSetStatus s => [s] | _ => [] end) l.

Definition createdRevisions (l : list Call) : list ControllerRevision :=
  flat_map (fun c => match c with CreateControllerRevision r => [r] | _ => [] end) l.

Definition deletedRevisions (l : list Call) : list ControllerRevision :=
  flat_map (fun c => match c with DeleteControllerRevision r => [r] | _ => [] end) l.

(** ** Pod predicates (stateful_set_utils.go) *)

(** Modelled from the spec: [isCreated] is missing from the sources; a
    replica is created when it exists on the platform, which a pod object
    shows by a non-empty phase. *)
Definition isCreated (pod : Pod) : bool :=
  match pod_phase pod with PhaseNone => false | _ => true end.

(** Modelled from the spec: [isTerminating] is missing from the sources;
    terminating is created and deletion timestamp set. *)
Definition isTerminating (pod : Pod) : bool := isCreated pod && pod_deleting pod.

(** Modelled from the spec: [isRunningAndReady] is missing from the
    sources; phase = Running and ready. *)
Definition isRunningAndReady (pod : Pod) : bool :=
  match pod_phase pod with PodRunning => pod_ready pod | _ => false end.

(** Modelled from the spec: [isHealthy] is missing from the sources;
    running-and-ready and not terminating. *)
Definition isHealthy (pod : Pod) : bool :=
  isRunningAndReady pod && negb (isTerminating pod).

(** Modelled from the spec: [isFailed] is missing from the sources;
    phase = Failed. *)
Definition isFailed (pod : Pod) : bool :=
  match pod_phase pod with PodFailed => true | _ => false end.

(** Modelled from the spec: [getPodRevision] is missing from the sources;
    the revision tag of the replica. *)
Definition getPodRevision (pod : Pod) : string := pod_revision pod.

(** Modelled from the spec: [getOrdinal] is missing from the sources; the
    ordinal extracted from the replica's name. *)
Definition getOrdinal (pod : Pod) : Z := pod_ordinal pod.

(** Modelled from the spec: [identityMatches] and [storageMatches] are
    missing from the sources; whether the identity and the storage bindings
    of the observed replica already match the set. *)
Definition identityMatches (set : StatefulSet) (pod : Pod) : bool := pod_identity_ok pod.
Definition storageMatches (set : StatefulSet) (pod : Pod) : bool := pod_storage_ok pod.

(** The partition floor of a set's strategy: 0 without a RollingUpdate
    struct (lines 419-422 of the source). *)
Definition partitionOf (set : StatefulSet) : Z :=
  match us_rollingUpdate (set_strategy set) with
  | Some p => p
  | None => 0
  end.

(** Modelled from the spec: [newVersionedStatefulSetPod] (the replica
    materializer) is missing from the sources.  Given (currentSet, updateSet,
    currentRevisionName, updateRevisionName, ordinal) it produces an
    unpersisted replica descriptor at that ordinal whose identity and storage
    fit the set: below the partition from the current set with the current
    revision's tag, else from the update set with the update revision's tag. *)
Definition newVersionedStatefulSetPod (currentSet updateSet : StatefulSet)
    (currentRevision updateRevision : string) (ordinal : Z) : Pod :=
  {| pod_ordinal := ordinal;
     pod_revision := if ordinal <? partitionOf currentSet
                     then currentRevision else updateRevision;
     pod_phase := PhaseNone;
     pod_ready := false;
     pod_deleting := false;
     pod_identity_ok := true;
     pod_storage_ok := true |}.

(** [pod.DeepCopy()]: a copy equal to the pod. *)
Definition DeepCopy (pod : Pod) : Pod := pod.

(** ** Revision helpers (pkg/controller/history, stateful_set_utils.go) *)

(** Modelled from the spec: [history.EqualRevision] is missing from the
    sources; two revisions are equivalent when their templates are
    structurally equal, regardless of Revision or name. *)
Definition EqualRevision (lhs rhs : ControllerRevision) : bool :=
  option_eqb String.eqb (rev_data lhs) (rev_data rhs).

(** Modelled from the spec: [history.FindEqualRevisions] is missing from
    the sources; the entries of the list equivalent to the candidate, in the
    order of the list. *)
Definition FindEqualRevisions (revisions : list ControllerRevision)
    (needle : ControllerRevision) : list ControllerRevision :=
  filter (fun r => EqualRevision r needle) revisions.

(** Modelled from the spec: the order of revision lists is missing from
    the sources; ascending (Revision, CreationTimestamp, Name). *)
Definition revision_leb (a b : ControllerRevision) : bool :=
  if rev_revision a <? rev_revision b then true
  else if rev_revision b <? rev_revision a then false
  else if rev_created a <? rev_created b then true
  else if rev_created b <? rev_created a then false
  else String.leb (rev_name a) (rev_name b).

Fixpoint insertRevision (r : ControllerRevision) (l : list ControllerRevision)
    : list ControllerRevision :=
  match l with
  | [] => [r]
  | x :: rest => if revision_leb r x then r :: l else x :: insertRevision r rest
  end.

(** Modelled from the spec: [history.SortControllerRevisions] is missing
    from the sources; it puts the list in ascending (Revision,
    CreationTimestamp, Name) order. *)
Definition SortControllerRevisions (revisions : list ControllerRevision)
    : list ControllerRevision :=
  fold_right insertRevision [] revisions.

(** Modelled from the spec: [nextRevision] is missing from the sources;
    (max existing Revision) + 1, and 1 for an empty history. *)
Definition nextRevision (revisions : list ControllerRevision) : Z :=
  match revisions with
  | [] => 1
  | r :: rest =>
      wrap64 (fold_left (fun m x => Z.max m (rev_revision x)) rest (rev_revision r) + 1)
  end.

(** Modelled from the spec: [ApplyRevision] is missing from the sources; the
    set with the template recorded in the revision, an error when the
    revision's payload does not decode. *)
Definition ApplyRevision (set : StatefulSet) (revision : ControllerRevision)
    : option StatefulSet :=
  match rev_data revision with
  | Some t =>
      Some {| set_name := set_name set;
              set_generation := set_generation set;
              set_deleting := set_deleting set;
              set_selector_ok := set_selector_ok set;
              set_replicas := set_replicas set;
              set_template := t;
              set_strategy := set_strategy set;
              set_historyLimit := set_historyLimit set;
              set_status := set_status set |}
  | None => None
  end.

(** Results of functions that return a value and an [error]; [Panic] is a
    run-time panic (an index out of range, a nil dereference). *)
Inductive result (A : Type) :=
| Ok (a : A)
| Err (e : error)
| Panic.
Arguments Ok {A} a.
Arguments Err {A} e.
Arguments Panic {A}.

Definition isPanic {A : Type} (r : result A) : bool :=
  match r with Panic => true | _ => false end.

Definition hasName (name : string) (r : ControllerRevision) : bool :=
  String.eqb (rev_name r) name.

Definition withRevision (r : ControllerRevision) (n : Z) : ControllerRevision :=
  {| rev_name := rev_name r; rev_revision := n;
     rev_created := rev_created r; rev_data := rev_data r |}.

Definition withName (r : ControllerRevision) (name : string) : ControllerRevision :=
  {| rev_name := name; rev_revision := rev_revision r;
     rev_created := rev_created r; rev_data := rev_data r |}.

(** ** The driver's control flow *)

(** One statement of [updateStatefulSet]: it falls through with a value, or
    returns [&status, err] from the function, or panics.  The local [status]
    and the platform are threaded through. *)
Inductive Step (A : Type) :=
| Next (a : A) (status : StatefulSetStatus) (w : World)
| Return (err : option error) (status : StatefulSetStatus) (w : World)
| Crash.
Arguments Next {A} a status w.
Arguments Return {A} err status w.
Arguments Crash {A}.

Definition Drv (A : Type) : Type := StatefulSetStatus -> World -> Step A.

Definition ret {A : Type} (a : A) : Drv A := fun status w => Next a status w.

Definition bind {A B : Type} (m : Drv A) (f : A -> Drv B) : Drv B :=
  fun status w =>
    match m status w with
    | Next a status' w' => f a status' w'
    | Return err status' w' => Return err status' w'
    | Crash => Crash
    end.

Notation "x <- m ;; k" := (bind m (fun x => k))
  (at level 61, m at next level, right associativity).
Notation "m ;; k" := (bind m (fun _ => k))
  (at level 61, right associativity).

(** [status.X = f(status.X)] *)
Definition modify (f : StatefulSetStatus -> StatefulSetStatus) : Drv unit :=
  fun status w => Next tt (f status) w.

(** [if err := call; err != nil { return &status, err }] *)
Definition orReturn (call : World -> option error * World) : Drv unit :=
  fun status w =>
    match call w with
    | (Some err, w') => Return (Some err) status w'
    | (None, w') => Next tt status w'
    end.

Definition effect (f : World -> World) : Drv unit :=
  fun status w => Next tt status (f w).

Definition returnStatus {A : Type} (err : option error) : Drv A :=
  fun status w => Return err status w.

Definition crash {A : Type} : Drv A := fun _ _ => Crash.

Definition when (b : bool) (m : Drv unit) : Drv unit := if b then m else ret tt.

Definition onReplicas (f : Z -> Z) (s : StatefulSetStatus) : StatefulSetStatus :=
  mkStatus (ObservedGeneration s) (f (Replicas s)) (ReadyReplicas s) (CurrentReplicas s)
           (UpdatedReplicas s) (CurrentRevision s) (UpdateRevision s) (CollisionCount s).
Definition onReadyReplicas (f : Z -> Z) (s : StatefulSetStatus) : StatefulSetStatus :=
  mkStatus (ObservedGeneration s) (Replicas s) (f (ReadyReplicas s)) (CurrentReplicas s)
           (UpdatedReplicas s) (CurrentRevision s) (UpdateRevision s) (CollisionCount s).
Definition onCurrentReplicas (f : Z -> Z) (s : StatefulSetStatus) : StatefulSetStatus :=
  mkStatus (ObservedGeneration s) (Replicas s) (ReadyReplicas s) (f (CurrentReplicas s))
           (UpdatedReplicas s) (CurrentRevision s) (UpdateRevision s) (CollisionCount s).
Definition onUpdatedReplicas (f : Z -> Z) (s : StatefulSetStatus) : StatefulSetStatus :=
  mkStatus (ObservedGeneration s) (Replicas s) (ReadyReplicas s) (CurrentReplicas s)
           (f (UpdatedReplicas s)) (CurrentRevision s) (UpdateRevision s) (CollisionCount s).

Section Control.

(** [ControllerRevisionName(set.Name, HashControllerRevision(revision,
    collisionCount))]: the name derived from the set's name, the hash of the
    template and the collision count. *)
Variable revisionName : string -> option Template -> Z -> string.

(** Which calls return a non-nil error: decided from the calls issued
    before and the call itself. *)
Variable fails : list Call -> Call -> bool.

(** Issue a call through a collaborator interface. *)
Definition issue (c : Call) (w : World) : option error * World :=
  if fails (w_log w) c
  then (Some (CallFailed c), logCall c w)
  else (None, logCall c w).

(** *** podControl and recorder *)

(** Modelled from the spec: the implementation of
    [StatefulPodControlInterface] is missing from the sources;
    [createReplica], [updateReplica] and [deleteReplica] are calls to the
    platform that may fail. *)
Definition podControl_CreateStatefulPod (set : StatefulSet) (pod : Pod) :=
  issue (CreateStatefulPod pod).
Definition podControl_UpdateStatefulPod (set : StatefulSet) (pod : Pod) :=
  issue (UpdateStatefulPod pod).
Definition podControl_DeleteStatefulPod (set : StatefulSet) (pod : Pod) :=
  issue (DeleteStatefulPod pod).

(** Modelled from the spec: the event recorder is missing from the
    sources; [emit] records a human-visible event and returns nothing. *)
Definition recorder_Eventf (set : StatefulSet) (reason : string) (pod : Pod)
    (w : World) : World :=
  logCall (Eventf reason pod) w.

(** *** controllerHistory *)

(** Modelled from the spec: the revision store is missing from the sources;
    [list] returns all revisions owned by or matching the set. *)
Definition controllerHistory_ListControllerRevisions (set : StatefulSet) (w : World)
    : result (list ControllerRevision) * World :=
  match issue ListControllerRevisions w with
  | (Some e, w') => (Err e, w')
  | (None, w') => (Ok (w_store w'), w')
  end.

(** Modelled from the spec: the naming loop of [create] is missing from
    the sources.  The name is derived from the collision count; a stored
    revision of that name and the same template is the persisted revision;
    one of another shape is a collision, which increments the collision count
    and retries. *)
Fixpoint persistRevision (fuel : nat) (setName : string) (revision : ControllerRevision)
    (collisionCount : Z) (store : list ControllerRevision)
    : result (ControllerRevision * Z) * list ControllerRevision :=
  match fuel with
  | O => (Err TooManyCollisions, store)
  | S fuel' =>
      let clone := withName revision (revisionName setName (rev_data revision) collisionCount) in
      match find (hasName (rev_name clone)) store with
      | None => (Ok (clone, collisionCount), store ++ [clone])
      | Some existing =>
          if EqualRevision existing clone
          then (Ok (existing, collisionCount), store)
          else persistRevision fuel' setName revision (inc32 collisionCount) store
      end
  end.

(** Modelled from the spec: [create(set, revision, &collisionCount)]
    persists a new revision; on name collision it increments collisionCount
    and retries; eventually it fails or returns the persisted revision.  The
    collision count is returned with the revision. *)
Definition controllerHistory_CreateControllerRevision (set : StatefulSet)
    (revision : ControllerRevision) (collisionCount : Z) (w : World)
    : result (ControllerRevision * Z) * World :=
  match issue (CreateControllerRevision revision) w with
  | (Some e, w') => (Err e, w')
  | (None, w') =>
      let '(r, store') :=
        persistRevision (S (List.length (w_store w'))) (set_name set) revision
                        collisionCount (w_store w') in
      (r, setStore store' w')
  end.

(** Modelled from the spec: [update(revision, newRevisionNumber)] bumps the
    Revision integer on an existing record; the bumped record is returned. *)
Definition controllerHistory_UpdateControllerRevision (revision : ControllerRevision)
    (newRevision : Z) (w : World) : result ControllerRevision * World :=
  match issue (UpdateControllerRevision revision newRevision) w with
  | (Some e, w') => (Err e, w')
  | (None, w') =>
      (Ok (withRevision revision newRevision),
       setStore (map (fun r => if hasName (rev_name revision) r
                               then withRevision r newRevision else r)
                     (w_store w')) w')
  end.

(** Modelled from the spec: [delete(revision)] removes the record of that
    name from the store. *)
Definition controllerHistory_DeleteControllerRevision (revision : ControllerRevision)
    (w : World) : option error * World :=
  match issue (DeleteControllerRevision revision) w with
  | (Some e, w') => (Some e, w')
  | (None, w') =>
      (None, setStore (filter (fun r => negb (hasName (rev_name revision) r)) (w_store w')) w')
  end.

(** Modelled from the spec: [newRevision] is missing from the sources; a
    freshly constructed revision capturing the current template, with the
    given Revision and the name derived from (set name, hash of the
    template, collision count).  Encoding the template of a set does not
    fail. *)
Definition newRevision (set : StatefulSet) (revision : Z) (collisionCount : Z)
    : result ControllerRevision :=
  Ok {| rev_name := revisionName (set_name set) (Some (set_template set)) collisionCount;
        rev_revision := revision;
        rev_created := 0;
        rev_data := Some (set_template set) |}.

(** *** ListRevisions (lines 117-123) *)

Definition ListRevisions (set : StatefulSet) (w : World)
    : result (list ControllerRevision) * World :=
  if set_selector_ok set
  then controllerHistory_ListControllerRevisions set w
  else (Err InvalidSelector, w).

(** *** truncateHistory (lines 143-174) *)

(** The [live] map: its keys, in the order of insertion. *)
Definition liveNames (pods : list Pod) (current update : ControllerRevision)
    : list string :=
  fold_left (fun live pod => live ++ [getPodRevision pod]) pods
            [rev_name current; rev_name update].

(** [live[name]]: a missing key reads as false. *)
Definition isLive (live : list string) (name : string) : bool :=
  existsb (String.eqb name) live.

(** The deletion loop over [history[0 .. len(history))]. *)
Fixpoint deleteRevisions (history : list ControllerRevision) (w : World)
    : option error * World :=
  match history with
  | [] => (None, w)
  | r :: rest =>
      match controllerHistory_DeleteControllerRevision r w with
      | (Some err, w') => (Some err, w')
      | (None, w') => deleteRevisions rest w'
      end
  end.

(** [history] is made with capacity [len(revisions)], so the slice
    expression [history[:k]] panics when [k] exceeds that capacity; when [k]
    exceeds only the length (a negative limit), the slots past the length
    hold nil, and the store dereferences it after the real entries are
    deleted. *)
Definition truncateHistory (set : StatefulSet) (pods : list Pod)
    (revisions : list ControllerRevision) (current update : ControllerRevision)
    (w : World) : result unit * World :=
  let live := liveNames pods current update in
  let history := filter (fun r => negb (isLive live (rev_name r))) revisions in
  let historyLen := len history in
  let historyLimit := set_historyLimit set in
  if historyLen <=? historyLimit then (Ok tt, w)
  else
    let k := historyLen - historyLimit in
    if len revisions <? k then (Panic, w)
    else
      match deleteRevisions (firstn (Z.to_nat k) history) w with
      | (Some err, w') => (Err err, w')
      | (None, w') => if historyLen <? k then (Panic, w') else (Ok tt, w')
      end.

(** *** getStatefulSetRevisions (lines 182-241) *)

(** The linear search for the revision named in the set's status. *)
Definition findCurrent (revisions : list ControllerRevision) (name : string)
    : option ControllerRevision :=
  find (hasName name) revisions.

(** Returns the current revision, the update revision, the collision count
    and, since the slice is sorted in place, the list as the caller sees it
    afterwards. *)
Definition getStatefulSetRevisions (set : StatefulSet) (revisions : list ControllerRevision)
    (w : World)
    : result (ControllerRevision * ControllerRevision * Z * list ControllerRevision) * World :=
  let revisionCount := len revisions in
  let revisions := SortControllerRevisions revisions in
  let collisionCount :=
    match CollisionCount (set_status set) with
    | Some c => c
    | None => 0
    end in
  (* create a new revision from the current set *)
  match newRevision set (nextRevision revisions) collisionCount with
  | Panic => (Panic, w)
  | Err err => (Err err, w)
  | Ok candidate =>
      (* find any equivalent revisions *)
      let equalRevisions := FindEqualRevisions revisions candidate in
      let equalCount := len equalRevisions in
      let updated : result (ControllerRevision * Z) * World :=
        if 0 <? equalCount then
          match index revisions (revisionCount - 1), index equalRevisions (equalCount - 1) with
          | Some last, Some lastEqual =>
              if EqualRevision last lastEqual
              then (Ok (last, collisionCount), w)
              else
                match controllerHistory_UpdateControllerRevision
                        lastEqual (rev_revision candidate) w with
                | (Ok r, w') => (Ok (r, collisionCount), w')
                | (Err err, w') => (Err err, w')
                | (Panic, w') => (Panic, w')
                end
          | _, _ => (Panic, w)
          end
        else controllerHistory_CreateControllerRevision set candidate collisionCount w in
      match updated with
      | (Panic, w') => (Panic, w')
      | (Err err, w') => (Err err, w')
      | (Ok (updateRevision, collisionCount), w') =>
          (* attempt to find the revision that corresponds to the current revision *)
          let currentRevision :=
            match findCurrent revisions (CurrentRevision (set_status set)) with
            | Some r => r
            | None => updateRevision
            end in
          (Ok (currentRevision, updateRevision, collisionCount, revisions), w')
      end
  end.

(** *** updateStatefulSet (lines 252-441) *)

Section Driver.

Variable set : StatefulSet.
Variables currentRevision updateRevision : ControllerRevision.
Variables currentSet updateSet : StatefulSet.

(** [if getPodRevision(pod) == currentRevision.Name { status.CurrentReplicas = f ... }]
    and the same for the update revision (lines 290-295, 338-343, 358-363,
    405-410). *)
Definition countRevision (f : Z -> Z) (pod : Pod) : Drv unit :=
  when (String.eqb (getPodRevision pod) (rev_name currentRevision))
       (modify (onCurrentReplicas f)) ;;
  when (String.eqb (getPodRevision pod) (rev_name updateRevision))
       (modify (onUpdatedReplicas f)).

(** Lines 279-301: gather the status counts and the unhealthy pods. *)
Fixpoint gather (pods : list Pod) (unhealthy : list Pod) : Drv (list Pod) :=
  match pods with
  | [] => ret unhealthy
  | pod :: rest =>
      modify (onReplicas inc32) ;;
      (* count the number of running and ready replicas *)
      when (isRunningAndReady pod) (modify (onReadyReplicas inc32)) ;;
      (* count the number of current and update replicas *)
      when (isCreated pod && negb (isTerminating pod)) (countRevision inc32 pod) ;;
      gather rest (if negb (isHealthy pod) then unhealthy ++ [pod] else unhealthy)
  end.

(** The values of [i] in [for i := lo; i < hi; i++]. *)
Definition loopRange (lo hi : Z) : list Z :=
  map (fun k => lo + Z.of_nat k) (seq 0 (Z.to_nat (hi - lo))).

(** Lines 303-311: one pod is appended for each [i] from [len(pods)] up to
    the replica count; the ordinal handed to the constructor is
    [int(status.ObservedGeneration)], not [i]. *)
Definition placeholders (pods : list Pod) (status : StatefulSetStatus) : list Pod :=
  map (fun _ : Z =>
         newVersionedStatefulSetPod currentSet updateSet
           (rev_name currentRevision) (rev_name updateRevision)
           (ObservedGeneration status))
      (loopRange (len pods) (set_replicas set)).

(** Lines 327-377: the body of the loop over the unhealthy pods. *)
Definition repair (pod : Pod) : Drv unit :=
  pod <- (if isFailed pod then
            (* delete and recreate failed pods *)
            effect (recorder_Eventf set "RecreatingFailedPod" pod) ;;
            orReturn (podControl_DeleteStatefulPod set pod) ;;
            countRevision dec32 pod ;;
            modify (onReplicas dec32) ;;
            ret (newVersionedStatefulSetPod currentSet updateSet
                   (rev_name currentRevision) (rev_name updateRevision)
                   (getOrdinal pod))
          else ret pod) ;;
  (* If we find a Pod that has not been created we create the Pod *)
  if negb (isCreated pod) then
    orReturn (podControl_CreateStatefulPod set pod) ;;
    modify (onReplicas inc32) ;;
    countRevision inc32 pod
    (* pod created, no more work possible for this round: continue *)
  else if identityMatches set pod && storageMatches set pod then
    ret tt (* continue *)
  else
    orReturn (podControl_UpdateStatefulPod updateSet (DeepCopy pod)).

Fixpoint repairAll (unhealthy : list Pod) : Drv unit :=
  match unhealthy with
  | [] => ret tt
  | pod :: rest => repair pod ;; repairAll rest
  end.

(** Lines 385-411: [for target := len(pods) - 1; target >= 0 && needToDelete > 0;
    target--]; [n] is [target + 1]. *)
Fixpoint scaleDown (pods : list Pod) (n : nat) (needToDelete : Z) : Drv unit :=
  match n with
  | O => ret tt
  | S target =>
      if 0 <? needToDelete then
        match index pods (Z.of_nat target) with
        | None => crash
        | Some pod =>
            let needToDelete := needToDelete - 1 in
            if isTerminating pod then scaleDown pods target needToDelete
            else
              orReturn (podControl_DeleteStatefulPod set pod) ;;
              countRevision dec32 pod ;;
              scaleDown pods target needToDelete
        end
      else ret tt
  end.

(** Lines 425-438: [for target := len(pods) - 1; target >= updateMin; target--];
    [n] is [target + 1]. *)
Fixpoint rollingUpdate (pods : list Pod) (updateMin : Z) (n : nat) : Drv unit :=
  match n with
  | O => if updateMin <=? -1 then crash else ret tt
  | S target =>
      if updateMin <=? Z.of_nat target then
        match index pods (Z.of_nat target) with
        | None => crash
        | Some pod =>
            (* delete the Pod if it is not already terminating and does not
               match the update revision. *)
            when (negb (String.eqb (getPodRevision pod) (rev_name updateRevision))
                  && negb (isTerminating pod))
                 (modify (onCurrentReplicas dec32) ;;
                  orReturn (podControl_DeleteStatefulPod set pod)) ;;
            rollingUpdate pods updateMin target
        end
      else ret tt
  end.

(** Lines 384-440: scale-down, then the update by strategy. *)
Definition terminate (pods : list Pod) : Drv unit :=
  scaleDown pods (List.length pods) (len pods - set_replicas set) ;;
  (* for the OnDelete strategy we short circuit *)
  (if StrategyType_eqb (us_type (set_strategy set)) OnDeleteStatefulSetStrategyType
   then returnStatus None else ret tt) ;;
  (* the minimum ordinal of the target sequence for a destructive update *)
  let updateMin := partitionOf set in
  rollingUpdate pods updateMin (List.length pods) ;;
  returnStatus None.

(** Lines 276-440, after the two [ApplyRevision] calls and the
    initialisation of the status. *)
Definition reconcile (pods : list Pod) : Drv unit :=
  unhealthy <- gather pods [] ;;
  extra <- (fun status w => Next (placeholders pods status) status w) ;;
  let unhealthy := unhealthy ++ extra in
  (* If the StatefulSet is being deleted, don't do anything other than
     updating status. *)
  (if set_deleting set then returnStatus None else ret tt) ;;
  repairAll unhealthy ;;
  terminate pods.

End Driver.

(** What [updateStatefulSet] hands back: the status pointer (nil after a
    failed [ApplyRevision]) and the error, or a panic. *)
Inductive Outcome :=
| Finished (status : option StatefulSetStatus) (err : option error) (w : World)
| Panicked.

Definition updateStatefulSet (set : StatefulSet)
    (currentRevision updateRevision : ControllerRevision)
    (collisionCount : Z) (pods : list Pod) (w : World) : Outcome :=
  (* get the current and update revisions of the set. *)
  match ApplyRevision set currentRevision with
  | None => Finished None (Some (UndecodableRevision currentRevision)) w
  | Some currentSet =>
      match ApplyRevision set updateRevision with
      | None => Finished None (Some (UndecodableRevision updateRevision)) w
      | Some updateSet =>
          (* set the generation, and revisions in the returned status *)
          let status :=
            {| ObservedGeneration := set_generation set;
               Replicas := 0; ReadyReplicas := 0;
               CurrentReplicas := 0; UpdatedReplicas := 0;
               CurrentRevision := rev_name currentRevision;
               UpdateRevision := rev_name updateRevision;
               CollisionCount := Some collisionCount |} in
          match reconcile set currentRevision updateRevision currentSet updateSet
                          pods status w with
          | Next _ status' w' => Finished (Some status') None w'
          | Return err status' w' => Finished (Some status') err w'
          | Crash => Panicked
          end
      end
  end.

(** *** updateStatefulSetStatus (lines 446-465) *)

(** Modelled from the spec: [completeRollingUpdate] is missing from the
    sources; if the strategy is rolling, the partition is 0, total, updated
    and ready replicas all equal the replica count, and the current revision
    differs from the update revision, then the current revision becomes the
    update revision and the current replicas the updated replicas. *)
Definition completeRollingUpdate (set : StatefulSet) (status : StatefulSetStatus)
    : StatefulSetStatus :=
  if StrategyType_eqb (us_type (set_strategy set)) RollingUpdateStatefulSetStrategyType
     && (partitionOf set =? 0)
     && (Replicas status =? set_replicas set)
     && (UpdatedReplicas status =? set_replicas set)
     && (ReadyReplicas status =? set_replicas set)
     && negb (String.eqb (CurrentRevision status) (UpdateRevision status))
  then mkStatus (ObservedGeneration status) (Replicas status) (ReadyReplicas status)
                (UpdatedReplicas status) (UpdatedReplicas status)
                (UpdateRevision status) (UpdateRevision status) (CollisionCount status)
  else status.

Definition status_eqb (a b : StatefulSetStatus) : bool :=
  (ObservedGeneration a =? ObservedGeneration b)
  && (Replicas a =? Replicas b)
  && (ReadyReplicas a =? ReadyReplicas b)
  && (CurrentReplicas a =? CurrentReplicas b)
  && (UpdatedReplicas a =? UpdatedReplicas b)
  && String.eqb (CurrentRevision a) (CurrentRevision b)
  && String.eqb (UpdateRevision a) (UpdateRevision b)
  && option_eqb Z.eqb (CollisionCount a) (CollisionCount b).

(** Modelled from the spec: [inconsistentStatus] is missing from the
    sources; a field-wise comparison against the last-published status. *)
Definition inconsistentStatus (set : StatefulSet) (status : StatefulSetStatus) : bool :=
  negb (status_eqb status (set_status set)).

(** Modelled from the spec: the status writer is missing from the sources;
    [write(set, status)] publishes the status and may fail. *)
Definition statusUpdater_UpdateStatefulSetStatus (set : StatefulSet)
    (status : StatefulSetStatus) :=
  issue (UpdateStatefulSetStatus status).

Definition updateStatefulSetStatus (set : StatefulSet) (status : StatefulSetStatus)
    (w : World) : option error * World :=
  (* complete any in progress rolling update if necessary *)
  let status := completeRollingUpdate set status in
  (* if the status is not inconsistent do not perform an update *)
  if negb (inconsistentStatus set status) then (None, w)
  else statusUpdater_UpdateStatefulSetStatus set status w.

(** *** UpdateStatefulSet (lines 72-115) *)

Definition UpdateStatefulSet (set : StatefulSet) (pods : list Pod) (w : World)
    : result unit * World :=
  (* list all revisions and sort them *)
  match ListRevisions set w with
  | (Panic, w1) => (Panic, w1)
  | (Err err, w1) => (Err err, w1)
  | (Ok revisions, w1) =>
      let revisions := SortControllerRevisions revisions in
      (* get the current, and update revisions *)
      match getStatefulSetRevisions set revisions w1 with
      | (Panic, w2) => (Panic, w2)
      | (Err err, w2) => (Err err, w2)
      | (Ok (currentRevision, updateRevision, collisionCount, revisions), w2) =>
          (* perform the main update function and get the status *)
          match updateStatefulSet set currentRevision updateRevision collisionCount pods w2 with
          | Panicked => (Panic, w2)
          | Finished _ (Some err) w3 => (Err err, w3)
          | Finished None None w3 => (Panic, w3)
          | Finished (Some status) None w3 =>
              (* update the set's status *)
              match updateStatefulSetStatus set status w3 with
              | (Some err, w4) => (Err err, w4)
              | (None, w4) =>
                  (* maintain the set's revision history limit *)
                  truncateHistory set pods revisions currentRevision updateRevision w4
              end
          end
      end
  end.

End Control.

(** ** AdoptOrphanRevisions (lines 125-136) *)

Section Adoption.

(** The state of the revision store as far as adoption goes. *)
Variable Store : Type.

(** Modelled from the spec: [controllerHistory.AdoptControllerRevision] is
    missing from the sources; [adoptOrphan(set, kind, revision)] takes
    ownership of an unowned revision and returns the adopted record, or
    fails. *)
Variable controllerHistory_AdoptControllerRevision :
  StatefulSet -> ControllerRevision -> Store -> result ControllerRevision * Store.

(** The loop writes [revisions[i] = adopted] in place, so the caller's slice
    is handed back with the error: [None] is a nil error. *)
Fixpoint AdoptOrphanRevisions (set : StatefulSet) (revisions : list ControllerRevision)
    (store : Store) : result unit * list ControllerRevision * Store :=
  match revisions with
  | [] => (Ok tt, [], store)
  | revision :: rest =>
      match controllerHistory_AdoptControllerRevision set revision store with
      | (Err err, store') => (Err err, revision :: rest, store')
      | (Panic, store') => (Panic, revision :: rest, store')
      | (Ok adopted, store') =>
          let '(r, rest', store'') := AdoptOrphanRevisions set rest store' in
          (r, adopted :: rest', store'')
      end
  end.

End Adoption.

(** ** Scenarios *)

(** A naming function for the scenarios: set name, template and collision
    count, joined by dashes. *)
Definition demoName (setName : string) (data : option Template) (c : Z) : string :=
  setName ++ "-" ++ match data with Some t => t | None => "" end
          ++ "-" ++ (if c =? 0 then "0" else if c =? 1 then "1" else "n").

(** A platform on which every call succeeds. *)
Definition noFailure (_ : list Call) (_ : Call) : bool := false.

(** A platform on which deleting the pod of the given ordinal fails. *)
Definition failDeleteOf (ordinal : Z) (_ : list Call) (c : Call) : bool :=
  match c with
  | DeleteStatefulPod pod => pod_ordinal pod =? ordinal
  | _ => false
  end.

Definition healthyPod (ordinal : Z) (revision : string) : Pod :=
  mkPod ordinal revision PodRunning true false true true.

Definition failedPod (ordinal : Z) (revision : string) : Pod :=
  mkPod ordinal revision PodFailed false false true true.

Definition R1 : ControllerRevision := mkRevision "web-A-0" 1 100 (Some "A").
Definition R2 : ControllerRevision := mkRevision "web-B-0" 2 200 (Some "B").
Definition R3 : ControllerRevision := mkRevision "web-C-0" 3 300 (Some "C").
Definition R4 : ControllerRevision := mkRevision "web-D-0" 4 400 (Some "D").

Definition rolling (partition : Z) : UpdateStrategy :=
  mkStrategy RollingUpdateStatefulSetStrategyType (Some partition).

(** The status published by the pass before the scenarios: three replicas
    at R1. *)
Definition publishedR1 : StatefulSetStatus :=
  mkStatus 1 3 3 3 3 "web-A-0" "web-A-0" (Some 0).

Definition threeAtR1 : list Pod :=
  [healthyPod 0 "web-A-0"; healthyPod 1 "web-A-0"; healthyPod 2 "web-A-0"].

(** S2: scale-down to N = 2 of three healthy replicas at R1. *)
Definition S2_set : StatefulSet :=
  mkSet "web" 2 false true 2 "A" (rolling 0) 10 publishedR1.

(** S3: N = 3, P = 0, revisions [R1], three replicas at R1, template
    changed to B. *)
Definition S3_set : StatefulSet :=
  mkSet "web" 2 false true 3 "B" (rolling 0) 10 publishedR1.

(** S5: revisions [R1 (A), R2 (B)], template now A. *)
Definition S5_set : StatefulSet :=
  mkSet "web" 3 false true 3 "A" (rolling 0) 10
        (mkStatus 2 3 3 3 3 "web-B-0" "web-B-0" (Some 0)).

(** S6: one observed replica, at ordinal 1, in Failed phase. *)
Definition S6_set : StatefulSet :=
  mkSet "web" 1 false true 1 "A" (rolling 0) 10
        (mkStatus 1 1 0 1 1 "web-A-0" "web-A-0" (Some 0)).
Definition S6_pods : list Pod := [failedPod 1 "web-A-0"].

(** Scale-up from nothing at generation 7: N = 3, nothing observed. *)
Definition scaleUp_set : StatefulSet :=
  mkSet "web" 7 false true 3 "A" (rolling 0) 10
        (mkStatus 0 0 0 0 0 "" "" None).

(** A partitioned update, P = 2, revisions [R1, R2], template B, three
    replicas at R1 listed out of ordinal order, and listed in ordinal order
    with ordinal 0 twice (a stale cache). *)
Definition partitioned_set : StatefulSet :=
  mkSet "web" 2 false true 3 "B" (rolling 2) 10
        (mkStatus 2 3 3 3 0 "web-A-0" "web-B-0" (Some 0)).
Definition unorderedAtR1 : list Pod :=
  [healthyPod 1 "web-A-0"; healthyPod 2 "web-A-0"; healthyPod 0 "web-A-0"].
Definition staleAtR1 : list Pod :=
  [healthyPod 0 "web-A-0"; healthyPod 0 "web-A-0"; healthyPod 1 "web-A-0"].

(** History truncation with H = 1: R3 current and R4 update. *)
Definition truncate_set : StatefulSet :=
  mkSet "web" 4 false true 0 "D" (rolling 0) 1
        (mkStatus 4 0 0 0 0 "web-C-0" "web-D-0" (Some 0)).
Definition R0 : ControllerRevision := mkRevision "web-Z-0" 0 50 (Some "Z").

(** The calls a pass adds to the log of an empty platform. *)
Definition passLog (r : result unit * World) : list Call := w_log (snd r).

(** ** Vocabulary of the statements *)

(** Ascending by Revision. *)
Definition byRevision (a b : ControllerRevision) : Prop :=
  rev_revision a <= rev_revision b.

(** A stored record survives the deletion of [deleted] when no deleted
    revision has its name. *)
Definition survives (deleted : list ControllerRevision) (r : ControllerRevision) : bool :=
  negb (existsb (fun d => hasName (rev_name d) r) deleted).

(** A live revision, in the words of the specification: its name is the
    current revision's, the update revision's, or the revision tag of an
    observed replica. *)
Definition liveRevision (pods : list Pod) (current update : ControllerRevision)
    (r : ControllerRevision) : bool :=
  String.eqb (rev_name r) (rev_name current)
  || String.eqb (rev_name r) (rev_name update)
  || existsb (fun pod => String.eqb (rev_name r) (getPodRevision pod)) pods.

(** The condition of line 428: the pod does not match the update revision
    and is not already terminating. *)
Definition needsUpdate (updateRevision : ControllerRevision) (pod : Pod) : bool :=
  negb (String.eqb (getPodRevision pod) (rev_name updateRevision))
  && negb (isTerminating pod).

(** The pods at positions [n - 1] down to [updateMin] that meet the
    condition, in the order the loop visits them. *)
Definition updateTargets (updateRevision : ControllerRevision) (pods : list Pod)
    (updateMin : Z) (n : nat) : list Pod :=
  filter (needsUpdate updateRevision)
         (rev (skipn (Z.to_nat updateMin) (firstn n pods))).

(** [w'] continues [w]: its log is the log of [w] followed by calls none of
    which writes the status. *)
Definition extends (w w' : World) : Prop :=
  exists l, w_log w' = w_log w ++ l /\ statusWrites l = [].

(** A driver statement continues the platform, and panics only if [bad]. *)
Definition stepExt {A : Type} (bad : Prop) (w : World) (r : Step A) : Prop :=
  match r with
  | Next _ _ w' => extends w w'
  | Return _ _ w' => extends w w'
  | Crash => bad
  end.

Definition drvExt {A : Type} (bad : Prop) (m : Drv A) : Prop :=
  forall status w, stepExt bad w (m status w).

(** The replacement of a failed pod, as line 345 builds it. *)
Definition replacementOf (currentRevision updateRevision : ControllerRevision)
    (currentSet updateSet : StatefulSet) (pod : Pod) : Pod :=
  newVersionedStatefulSetPod currentSet updateSet
    (rev_name currentRevision) (rev_name updateRevision) (getOrdinal pod).

(** The calls of pod control and of the event recorder. *)
Definition isPodCall (c : Call) : Prop :=
  match c with
  | CreateStatefulPod _ | UpdateStatefulPod _ | DeleteStatefulPod _ | Eventf _ _ => True
  | _ => False
  end.

(** The calls that write to the revision store. *)
Definition isRevisionWrite (c : Call) : Prop :=
  match c with
  | CreateControllerRevision _ | UpdateControllerRevision _ _ => True
  | _ => False
  end.

(** The pod calls of a log. *)
Definition podCalls (l : list Call) : list Call :=
  flat_map (fun c => match c with
                     | CreateStatefulPod _ | UpdateStatefulPod _
                     | DeleteStatefulPod _ | Eventf _ _ => [c]
                     | _ => []
                     end) l.

(** [(status', w')] follows [(status, w)]: the status is related by [R],
    the store is the same, and the log has grown by calls that satisfy [P]. *)
Definition follows (P : Call -> Prop) (R : StatefulSetStatus -> StatefulSetStatus -> Prop)
    (status : StatefulSetStatus) (w : World) (status' : StatefulSetStatus) (w' : World)
    : Prop :=
  R status status'
  /\ w_store w' = w_store w
  /\ exists l, w_log w' = w_log w ++ l /\ Forall P l.

Definition stepObeys {A : Type} (P : Call -> Prop)
    (R : StatefulSetStatus -> StatefulSetStatus -> Prop) (bad : Prop)
    (status : StatefulSetStatus) (w : World) (r : Step A) : Prop :=
  match r with
  | Next _ status' w' => follows P R status w status' w'
  | Return _ status' w' => follows P R status w status' w'
  | Crash => bad
  end.

(** Every run of the statement keeps to [P] and [R], and panics only if [bad]. *)
Definition obeys {A : Type} (P : Call -> Prop)
    (R : StatefulSetStatus -> StatefulSetStatus -> Prop) (bad : Prop) (m : Drv A) : Prop :=
  forall status w, stepObeys P R bad status w (m status w).

(** The fields of the status that are set once, with the ready count. *)
Definition keepsHeader (s s' : StatefulSetStatus) : Prop :=
  ObservedGeneration s' = ObservedGeneration s
  /\ CurrentRevision s' = CurrentRevision s
  /\ UpdateRevision s' = UpdateRevision s
  /\ CollisionCount s' = CollisionCount s
  /\ ReadyReplicas s' = ReadyReplicas s.

(** As [keepsHeader], and the total as well. *)
Definition keepsTotal (s s' : StatefulSetStatus) : Prop :=
  keepsHeader s s' /\ Replicas s' = Replicas s.

(** The status after lines 290-295 (with [inc32]) or 338-343, 405-410 (with
    [dec32]) on one pod. *)
Definition counted (currentRevision updateRevision : ControllerRevision) (f : Z -> Z)
    (pod : Pod) (s : StatefulSetStatus) : StatefulSetStatus :=
  let s := if String.eqb (getPodRevision pod) (rev_name currentRevision)
           then onCurrentReplicas f s else s in
  if String.eqb (getPodRevision pod) (rev_name updateRevision)
  then onUpdatedReplicas f s else s.

(** A pod that counts for the revision of the given name: created, not
    terminating, and tagged with it. *)
Definition countsFor (name : string) (pod : Pod) : bool :=
  isCreated pod && negb (isTerminating pod) && String.eqb (getPodRevision pod) name.

(** The pods the scale-down loop started at position [n - 1] with
    [needToDelete] to go deletes: the non-terminating ones among the last
    [needToDelete] of the first [n], from the end. *)
Definition scaleDownTargets (pods : list Pod) (n : nat) (needToDelete : Z) : list Pod :=
  filter (fun pod => negb (isTerminating pod))
         (rev (skipn (n - Z.to_nat needToDelete) (firstn n pods))).

(** What the repair loop may call on a list of unhealthy pods. *)
Definition repairCall (set : StatefulSet) (unhealthy : list Pod) (c : Call) : Prop :=
  match c with
  | Eventf reason pod =>
      reason = "RecreatingFailedPod" /\ isFailed pod = true /\ In pod unhealthy
  | DeleteStatefulPod pod => isFailed pod = true /\ In pod unhealthy
  | CreateStatefulPod pod => isCreated pod = false
  | UpdateStatefulPod pod =>
      isCreated pod = true /\ isFailed pod = false /\ In pod unhealthy
      /\ identityMatches set pod && storageMatches set pod = false
  | _ => False
  end.

(** What scale-down and update may call: the delete of a pod that is not
    terminating, at a position of the list from the replica count on or,
    unless the strategy is OnDelete, from the partition on. *)
Definition terminateCall (set : StatefulSet) (pods : list Pod) (c : Call) : Prop :=
  exists i pod,
    c = DeleteStatefulPod pod
    /\ nth_error pods i = Some pod
    /\ isTerminating pod = false
    /\ (set_replicas set <= Z.of_nat i
        \/ (us_type (set_strategy set) = RollingUpdateStatefulSetStrategyType
            /\ partitionOf set <= Z.of_nat i)).

(** The statement falls through only with values that satisfy [Q]. *)
Definition yields {A : Type} (Q : A -> Prop) (m : Drv A) : Prop :=
  forall status w,
    match m status w with
    | Next a _ _ => Q a
    | _ => True
    end.

(** The status after one round of the loop of lines 279-301. *)
Definition tally (currentRevision updateRevision : ControllerRevision)
    (s : StatefulSetStatus) (pod : Pod) : StatefulSetStatus :=
  let s := onReplicas inc32 s in
  let s := if isRunningAndReady pod then onReadyReplicas inc32 s else s in
  if isCreated pod && negb (isTerminating pod)
  then counted currentRevision updateRevision inc32 pod s
  else s.

(** The status with which lines 269-274 start. *)
Definition initialStatus (set : StatefulSet)
    (currentRevision updateRevision : ControllerRevision) (collisionCount : Z)
    : StatefulSetStatus :=
  {| ObservedGeneration := set_generation set;
     Replicas := 0; ReadyReplicas := 0;
     CurrentReplicas := 0; UpdatedReplicas := 0;
     CurrentRevision := rev_name currentRevision;
     UpdateRevision := rev_name updateRevision;
     CollisionCount := Some collisionCount |}.

(** What the driver may call on a list of observed pods: the event and the
    delete of a failed pod; the delete of a pod by scale-down or update; the
    create of a pod that is not created; the update of an observed pod that
    is created, unhealthy, not failed, and whose identity or storage does
    not match. *)
Definition driverCall (set : StatefulSet) (pods : list Pod) (c : Call) : Prop :=
  match c with
  | Eventf reason pod =>
      reason = "RecreatingFailedPod" /\ isFailed pod = true /\ In pod pods
  | DeleteStatefulPod pod =>
      In pod pods /\ (isFailed pod = true \/ terminateCall set pods c)
  | CreateStatefulPod pod => isCreated pod = false
  | UpdateStatefulPod pod =>
      In pod pods /\ isCreated pod = true /\ isFailed pod = false
      /\ isHealthy pod = false
      /\ identityMatches set pod && storageMatches set pod = false
  | _ => False
  end.

(** The candidate revision of line 198. *)
Definition candidateOf (revisionName : string -> option Template -> Z -> string)
    (set : StatefulSet) (revisions : list ControllerRevision) : ControllerRevision :=
  {| rev_name := revisionName (set_name set) (Some (set_template set))
                   match CollisionCount (set_status set) with Some c => c | None => 0 end;
     rev_revision := nextRevision (SortControllerRevisions revisions);
     rev_created := 0;
     rev_data := Some (set_template set) |}.

(** A platform on which the create of a revision fails. *)
Definition failCreateRevision (_ : list Call) (c : Call) : bool :=
  match c with
  | CreateControllerRevision _ => true
  | _ => false
  end.

(** Scenario S3 with the set being deleted. *)
Definition deleting_set : StatefulSet :=
  mkSet "web" 2 true true 3 "B" (rolling 0) 10 publishedR1.

(** Three replicas at R1 wanted and observed, template A. *)
Definition settled_set : StatefulSet :=
  mkSet "web" 2 false true 3 "A" (rolling 0) 10 publishedR1.

(** *** The driver as a script *)

(** One action of the driver: the status is changed, a call is issued and,
    if the call did not fail, the status is changed again.  The event
    recorder returns nothing: an event cannot fail. *)
Record Action := mkAction {
  act_before : StatefulSetStatus -> StatefulSetStatus;
  act_call : Call;
  act_fallible : bool;
  act_after : StatefulSetStatus -> StatefulSetStatus
}.

(** The status after an action that succeeded. *)
Definition act_step (s : StatefulSetStatus) (a : Action) : StatefulSetStatus :=
  act_after a (act_before a s).

(** Carry a script out: at the first call that fails, the status as changed
    so far is returned with the error of that call. *)
Fixpoint perform (fails : list Call -> Call -> bool) (script : list Action)
    (status : StatefulSetStatus) (w : World) : Step unit :=
  match script with
  | [] => Next tt status w
  | a :: rest =>
      if act_fallible a && fails (w_log w) (act_call a)
      then Return (Some (CallFailed (act_call a))) (act_before a status)
                  (logCall (act_call a) w)
      else perform fails rest (act_step status a) (logCall (act_call a) w)
  end.

(** Every call of the script succeeds when issued in turn after [log]. *)
Fixpoint succeeded (fails : list Call -> Call -> bool) (log : list Call)
    (script : list Action) : bool :=
  match script with
  | [] => true
  | a :: rest =>
      negb (act_fallible a && fails log (act_call a))
      && succeeded fails (log ++ [act_call a]) rest
  end.

(** The platform after the calls [l]. *)
Definition logCalls (l : list Call) (w : World) : World :=
  {| w_store := w_store w; w_log := w_log w ++ l |}.

(** What [updateStatefulSet] makes of the end of the script. *)
Definition finish (r : Step unit) : Step unit :=
  match r with
  | Next _ status w => Return None status w
  | r => r
  end.

(** Line 331; lines 333-344; lines 352-363; line 373; lines 400-410; lines
    429-435. *)
Definition recordEvent (pod : Pod) : Action :=
  mkAction (fun s => s) (Eventf "RecreatingFailedPod" pod) false (fun s => s).
Definition deleteFailed (currentRevision updateRevision : ControllerRevision)
    (pod : Pod) : Action :=
  mkAction (fun s => s) (DeleteStatefulPod pod) true
           (fun s => onReplicas dec32 (counted currentRevision updateRevision dec32 pod s)).
Definition createPod (currentRevision updateRevision : ControllerRevision)
    (pod : Pod) : Action :=
  mkAction (fun s => s) (CreateStatefulPod pod) true
           (fun s => counted currentRevision updateRevision inc32 pod (onReplicas inc32 s)).
Definition updatePod (pod : Pod) : Action :=
  mkAction (fun s => s) (UpdateStatefulPod (DeepCopy pod)) true (fun s => s).
Definition deleteSurplus (currentRevision updateRevision : ControllerRevision)
    (pod : Pod) : Action :=
  mkAction (fun s => s) (DeleteStatefulPod pod) true
           (counted currentRevision updateRevision dec32 pod).
Definition deleteForUpdate (pod : Pod) : Action :=
  mkAction (onCurrentReplicas dec32) (DeleteStatefulPod pod) true (fun s => s).

(** The actions on one unhealthy pod. *)
Definition repairScript (set : StatefulSet)
    (currentRevision updateRevision : ControllerRevision)
    (currentSet updateSet : StatefulSet) (pod : Pod) : list Action :=
  if isFailed pod then
    [recordEvent pod;
     deleteFailed currentRevision updateRevision pod;
     createPod currentRevision updateRevision
       (newVersionedStatefulSetPod currentSet updateSet
          (rev_name currentRevision) (rev_name updateRevision) (getOrdinal pod))]
  else if negb (isCreated pod) then [createPod currentRevision updateRevision pod]
  else if identityMatches set pod && storageMatches set pod then []
  else [updatePod pod].

(** The actions of a pass on the observed pods, [counts] being the status
    after the counting loop: the repairs of the unhealthy pods and of the
    placeholders, the deletes of the surplus, the deletes for update. *)
Definition driverScript (set : StatefulSet)
    (currentRevision updateRevision : ControllerRevision)
    (currentSet updateSet : StatefulSet) (pods : list Pod)
    (counts : StatefulSetStatus) : list Action :=
  if set_deleting set then []
  else
    flat_map (repairScript set currentRevision updateRevision currentSet updateSet)
             (filter (fun pod => negb (isHealthy pod)) pods
              ++ placeholders set currentRevision updateRevision currentSet updateSet
                              pods counts)
    ++ map (deleteSurplus currentRevision updateRevision)
           (scaleDownTargets pods (List.length pods) (len pods - set_replicas set))
    ++ (if StrategyType_eqb (us_type (set_strategy set)) OnDeleteStatefulSetStrategyType
        then []
        else map deleteForUpdate
                 (updateTargets updateRevision pods (partitionOf set) (List.length pods))).

(** The number of pods of a list tagged with the revision of the given
    name. *)
Definition taggedWith (name : string) (pods : list Pod) : nat :=
  List.length (filter (fun pod => String.eqb (getPodRevision pod) name) pods).

(** A store for the adoption scenarios: the number of adoptions made; the
    third one fails. *)
Definition adoptTwice (set : StatefulSet) (revision : ControllerRevision) (made : nat)
    : result ControllerRevision * nat :=
  if (made <? 2)%nat
  then (Ok (withName revision ("adopted-" ++ rev_name revision)), S made)
  else (Err (UndecodableRevision revision), S made).

(** ** The scenarios, run *)

(** C1. Scenario S3 (N = 3, P = 0, three replicas at R1, template changed):
    the pass persists R2 and then issues a delete for every replica, ordinals
    2, 1 and 0 in that order, not for ordinal 2 only; the loop of lines
    425-438 does not stop after a delete that succeeded. *)
Theorem S3_rolling_update_deletes_every_replica :
  let r := UpdateStatefulSet demoName noFailure S3_set threeAtR1 (mkWorld [R1] []) in
  fst r = Ok tt
  /\ map rev_name (createdRevisions (passLog r)) = ["web-B-0"]
  /\ map pod_ordinal (deletedPods (passLog r)) = [2; 1; 0]
  /\ map UpdateRevision (statusWrites (passLog r)) = ["web-B-0"].
Proof. vm_compute. repeat split. Qed.

(** C2, the claim as stated fails: in scenario S2 (N = 2, three healthy
    replicas at R1) the pass issues one delete, at ordinal 2, and the status
    it publishes has Replicas = 3, not 2; the delete has decremented
    CurrentReplicas and UpdatedReplicas only. *)
Lemma S2_scale_down_keeps_Replicas :
  let r := UpdateStatefulSet demoName noFailure S2_set threeAtR1 (mkWorld [R1] []) in
  fst r = Ok tt
  /\ map pod_ordinal (deletedPods (passLog r)) = [2]
  /\ map Replicas (statusWrites (passLog r)) = [3]
  /\ map Replicas (statusWrites (passLog r)) <> [2]
  /\ map CurrentReplicas (statusWrites (passLog r)) = [2]
  /\ map UpdatedReplicas (statusWrites (passLog r)) = [2].
Proof. vm_compute. repeat split; try reflexivity. discriminate. Qed.

(** C5. Scale-up from nothing at generation 7 with N = 3: the three
    placeholders, and the three pods the pass creates, all carry ordinal 7,
    the set's generation, not the ordinals 0, 1, 2. *)
Theorem placeholders_carry_the_generation :
  let r := UpdateStatefulSet demoName noFailure scaleUp_set [] (mkWorld [] []) in
  fst r = Ok tt
  /\ map pod_ordinal (createdPods (passLog r)) = [7; 7; 7]
  /\ loopRange (len (@nil Pod)) (set_replicas scaleUp_set) = [0; 1; 2].
Proof. vm_compute. repeat split. Qed.

(** C8. With partition P = 2 and the update revision R2: for replicas at R1
    listed as ordinals 0, 0, 1 the pass deletes, for update, the replica of
    ordinal 1; listed as 1, 2, 0 it deletes the replica of ordinal 0.  The
    loop of lines 425-438 compares the partition with the position in the
    list, not with the ordinal. *)
Theorem partition_is_compared_with_the_position :
  let r := UpdateStatefulSet demoName noFailure partitioned_set staleAtR1
                             (mkWorld [R1; R2] []) in
  let r' := UpdateStatefulSet demoName noFailure partitioned_set unorderedAtR1
                              (mkWorld [R1; R2] []) in
  partitionOf partitioned_set = 2
  /\ fst r = Ok tt
  /\ map pod_ordinal (deletedPods (passLog r)) = [1]
  /\ fst r' = Ok tt
  /\ map pod_ordinal (deletedPods (passLog r')) = [0].
Proof. vm_compute. repeat split. Qed.

(** C3, the claim as stated fails: in scenario S6 the pass emits the event
    and deletes the failed replica of ordinal 1, and it is not so that it
    issues no create: the replacement at ordinal 1 is created in the same
    pass. *)
Lemma S6_replacement_created_in_the_same_pass :
  let r := UpdateStatefulSet demoName noFailure S6_set S6_pods (mkWorld [R1] []) in
  In (Eventf "RecreatingFailedPod" (failedPod 1 "web-A-0")) (passLog r)
  /\ In (DeleteStatefulPod (failedPod 1 "web-A-0")) (passLog r)
  /\ ~ (createdPods (passLog r) = [])
  /\ map pod_ordinal (createdPods (passLog r)) = [1].
Proof.
  vm_compute. repeat split; try (intuition congruence).
Qed.

(** C4, the claim as stated fails: in scenario S3 on a platform where the
    delete of ordinal 1 fails, the delete of ordinal 2 has succeeded and the
    driver has decremented CurrentReplicas, yet the pass returns the error
    and it is not so that a status was published. *)
Lemma S3_aborted_pass_publishes_nothing :
  let r := UpdateStatefulSet demoName (failDeleteOf 1) S3_set threeAtR1 (mkWorld [R1] []) in
  fst r = Err (CallFailed (DeleteStatefulPod (healthyPod 1 "web-A-0")))
  /\ map pod_ordinal (deletedPods (passLog r)) = [2; 1]
  /\ ~ (exists status, In (UpdateStatefulSetStatus status) (passLog r)).
Proof.
  vm_compute. repeat split.
  intros [status H]. repeat (destruct H as [H | H]; [discriminate H |]). exact H.
Qed.

(** ** Lists, indexes and sorting *)

Lemma len_nonneg {A : Type} (l : list A) : 0 <= len l.
Proof. unfold len. lia. Qed.

Lemma index_in_range {A : Type} (l : list A) (i : Z) :
  0 <= i < len l -> exists x, index l i = Some x.
Proof.
  unfold index, len. intros H.
  destruct (Z.ltb_spec i 0) as [Hlt | _]; [lia |].
  destruct (nth_error l (Z.to_nat i)) as [x |] eqn:E; [eauto |].
  apply nth_error_None in E. lia.
Qed.

Lemma index_last {A : Type} (l : list A) (d : A) :
  l <> [] -> index l (len l - 1) = Some (last l d).
Proof.
  intros Hne. destruct (exists_last Hne) as [l' [x ->]].
  rewrite last_last. unfold index, len. rewrite length_app. simpl.
  destruct (Z.ltb_spec (Z.of_nat (List.length l' + 1) - 1) 0) as [Hlt | _]; [lia |].
  replace (Z.to_nat (Z.of_nat (List.length l' + 1) - 1)) with (List.length l' + 0)%nat by lia.
  rewrite nth_error_app2 by lia.
  replace (List.length l' + 0 - List.length l')%nat with O by lia. reflexivity.
Qed.

Lemma index_nat_app {A : Type} (l : list A) (n : nat) (x : A) :
  index l (Z.of_nat n) = Some x -> firstn (S n) l = firstn n l ++ [x].
Proof.
  unfold index. destruct (Z.ltb_spec (Z.of_nat n) 0) as [Hlt | _]; [lia |].
  rewrite Nat2Z.id. revert l. induction n as [| n IH]; intros [| y l]; simpl; try discriminate.
  - intros [= ->]. reflexivity.
  - intros H. f_equal. apply IH. exact H.
Qed.

Lemma index_nat_length {A : Type} (l : list A) (n : nat) (x : A) :
  index l (Z.of_nat n) = Some x -> (n < List.length l)%nat.
Proof.
  unfold index. destruct (Z.ltb_spec (Z.of_nat n) 0) as [Hlt | _]; [lia |].
  rewrite Nat2Z.id. intros H. apply nth_error_Some. congruence.
Qed.

Lemma insertRevision_length (r : ControllerRevision) (l : list ControllerRevision) :
  List.length (insertRevision r l) = S (List.length l).
Proof.
  induction l as [| x l IH]; simpl; [reflexivity |].
  destruct (revision_leb r x); simpl; [reflexivity | now rewrite IH].
Qed.

Lemma SortControllerRevisions_length (l : list ControllerRevision) :
  List.length (SortControllerRevisions l) = List.length l.
Proof.
  induction l as [| x l IH]; simpl; [reflexivity |].
  unfold SortControllerRevisions in *. simpl.
  now rewrite insertRevision_length, IH.
Qed.

Lemma revision_leb_true (a b : ControllerRevision) :
  revision_leb a b = true -> byRevision a b.
Proof.
  unfold revision_leb, byRevision.
  destruct (Z.ltb_spec (rev_revision a) (rev_revision b)); [lia |].
  destruct (Z.ltb_spec (rev_revision b) (rev_revision a)); [discriminate | lia].
Qed.

Lemma revision_leb_false (a b : ControllerRevision) :
  revision_leb a b = false -> byRevision b a.
Proof.
  unfold revision_leb, byRevision.
  destruct (Z.ltb_spec (rev_revision a) (rev_revision b)); [discriminate |].
  lia.
Qed.

Lemma insertRevision_In (r x : ControllerRevision) (l : list ControllerRevision) :
  In x (insertRevision r l) -> x = r \/ In x l.
Proof.
  induction l as [| y l IH]; simpl.
  - intuition.
  - destruct (revision_leb r y); simpl; intuition.
Qed.

Lemma insertRevision_sorted (r : ControllerRevision) (l : list ControllerRevision) :
  StronglySorted byRevision l -> StronglySorted byRevision (insertRevision r l).
Proof.
  induction 1 as [| y l Hs IH Hall]; simpl.
  - constructor; constructor.
  - destruct (revision_leb r y) eqn:E.
    + apply revision_leb_true in E. constructor.
      * constructor; assumption.
      * constructor; [exact E |].
        rewrite Forall_forall in *. intros z Hz. specialize (Hall z Hz).
        unfold byRevision in *. lia.
    + apply revision_leb_false in E. constructor; [exact IH |].
      rewrite Forall_forall in *. intros z Hz.
      apply insertRevision_In in Hz. destruct Hz as [-> | Hz]; [exact E | auto].
Qed.

(** The sort puts the list in ascending order of Revision. *)
Lemma SortControllerRevisions_sorted (l : list ControllerRevision) :
  StronglySorted byRevision (SortControllerRevisions l).
Proof.
  induction l as [| x l IH]; unfold SortControllerRevisions in *; simpl.
  - constructor.
  - apply insertRevision_sorted. exact IH.
Qed.

Lemma StronglySorted_app_le {A : Type} (R : A -> A -> Prop) (l1 l2 : list A) :
  StronglySorted R (l1 ++ l2) -> forall a b, In a l1 -> In b l2 -> R a b.
Proof.
  induction l1 as [| x l1 IH]; simpl; intros Hs a b Ha Hb; [contradiction |].
  inversion Hs as [| ? ? Hs' Hall]; subst.
  destruct Ha as [-> | Ha].
  - rewrite Forall_forall in Hall. apply Hall. apply in_or_app. now right.
  - eapply IH; eauto.
Qed.

Lemma StronglySorted_app_l {A : Type} (R : A -> A -> Prop) (l1 l2 : list A) :
  StronglySorted R (l1 ++ l2) -> StronglySorted R l1.
Proof.
  induction l1 as [| x l1 IH]; simpl; intros Hs; [constructor |].
  inversion Hs as [| ? ? Hs' Hall]; subst. constructor; [auto |].
  rewrite Forall_forall in *. intros y Hy. apply Hall. apply in_or_app. now left.
Qed.

Lemma StronglySorted_filter {A : Type} (R : A -> A -> Prop) (f : A -> bool) (l : list A) :
  StronglySorted R l -> StronglySorted R (filter f l).
Proof.
  induction 1 as [| x l Hs IH Hall]; simpl; [constructor |].
  destruct (f x); [| exact IH].
  constructor; [exact IH |].
  rewrite Forall_forall in *. intros y Hy. apply filter_In in Hy. apply Hall. tauto.
Qed.

(** ** Equivalence of revisions *)

Lemma EqualRevision_iff (a b : ControllerRevision) :
  EqualRevision a b = true <-> rev_data a = rev_data b.
Proof.
  unfold EqualRevision, option_eqb.
  destruct (rev_data a) as [x |], (rev_data b) as [y |]; split; intros H;
    try discriminate; try reflexivity.
  - apply String.eqb_eq in H. now subst.
  - injection H as ->. apply String.eqb_refl.
Qed.

Lemma EqualRevision_via (a b c : ControllerRevision) :
  EqualRevision b c = true -> EqualRevision a b = EqualRevision a c.
Proof.
  intros H. apply EqualRevision_iff in H.
  unfold EqualRevision. now rewrite H.
Qed.

Section RevisionManager.

Variable revisionName : string -> option Template -> Z -> string.
Variable fails : list Call -> Call -> bool.

Lemma issue_log (c : Call) (w : World) :
  w_log (snd (issue fails c w)) = w_log w ++ [c]
  /\ w_store (snd (issue fails c w)) = w_store w.
Proof. unfold issue. destruct (fails (w_log w) c); simpl; auto. Qed.

Lemma persistRevision_no_panic (fuel : nat) (setName : string)
    (revision : ControllerRevision) (c : Z) (store : list ControllerRevision) :
  isPanic (fst (persistRevision revisionName fuel setName revision c store)) = false.
Proof.
  revert c. induction fuel as [| fuel IH]; intros c; simpl; [reflexivity |].
  destruct (find _ store) as [existing |]; [| reflexivity].
  destruct (EqualRevision existing _); [reflexivity | apply IH].
Qed.

Lemma FindEqualRevisions_nonempty (revisions : list ControllerRevision)
    (needle : ControllerRevision) :
  0 < len (FindEqualRevisions revisions needle) ->
  FindEqualRevisions revisions needle <> [] /\ revisions <> [].
Proof.
  unfold FindEqualRevisions, len. intros H. split.
  - intros E. rewrite E in H. simpl in H. lia.
  - intros ->. simpl in H. lia.
Qed.

Lemma SortControllerRevisions_nonempty (l : list ControllerRevision) :
  SortControllerRevisions l <> [] -> l <> [].
Proof. intros H ->. now apply H. Qed.

Lemma len_sorted (l : list ControllerRevision) :
  len (SortControllerRevisions l) = len l.
Proof. unfold len. now rewrite SortControllerRevisions_length. Qed.

(** C9. [getStatefulSetRevisions] never panics: [revisions[revisionCount-1]]
    and [equalRevisions[equalCount-1]] are evaluated only when an equivalent
    revision was found, so both lists are non-empty and both indexes are in
    range; this holds for every set, every revision list (the empty one
    included) and every platform. *)
Theorem getStatefulSetRevisions_never_panics
    (set : StatefulSet) (revisions : list ControllerRevision) (w : World) :
  isPanic (fst (getStatefulSetRevisions revisionName fails set revisions w)) = false.
Proof.
  unfold getStatefulSetRevisions, newRevision.
  set (sorted := SortControllerRevisions revisions).
  set (candidate := mkRevision _ _ _ _).
  destruct (Z.ltb_spec 0 (len (FindEqualRevisions sorted candidate))) as [Hpos | Hzero].
  - destruct (FindEqualRevisions_nonempty _ _ Hpos) as [Heq Hsorted].
    rewrite <- (len_sorted revisions). fold sorted.
    rewrite (index_last sorted candidate Hsorted).
    rewrite (index_last _ candidate Heq).
    destruct (EqualRevision _ _); [reflexivity |].
    unfold controllerHistory_UpdateControllerRevision, issue.
    destruct (fails _ _); reflexivity.
  - unfold controllerHistory_CreateControllerRevision, issue.
    destruct (fails _ _); [reflexivity |].
    match goal with
    | |- context [persistRevision ?n ?f ?s ?r ?c ?st] =>
        pose proof (persistRevision_no_panic f s r c st) as Hp;
        destruct (persistRevision n f s r c st) as [[[u c'] | err |] store']
    end; simpl in *; try reflexivity. discriminate Hp.
Qed.

(** C6. Rollback detection.  Let the revision list be sorted, let some entry
    be equivalent to the freshly built candidate and let the last entry not
    be equivalent to it.  If the store's update succeeds, the update
    revision returned is the equivalent entry (the one of greatest Revision)
    with its Revision set to the candidate's; the only call issued is the
    store's update of that entry, so no revision is created, and the store
    holds as many records as before. *)
Theorem rollback_bumps_the_equivalent_revision
    (set : StatefulSet) (revisions : list ControllerRevision) (w : World)
    (collisionCount : Z) (candidate : ControllerRevision) :
  SortControllerRevisions revisions = revisions ->
  collisionCount = (match CollisionCount (set_status set) with Some c => c | None => 0 end) ->
  newRevision revisionName set (nextRevision revisions) collisionCount = Ok candidate ->
  FindEqualRevisions revisions candidate <> [] ->
  EqualRevision (last revisions candidate) candidate = false ->
  let equivalent := last (FindEqualRevisions revisions candidate) candidate in
  fails (w_log w) (UpdateControllerRevision equivalent (rev_revision candidate)) = false ->
  exists current w',
    getStatefulSetRevisions revisionName fails set revisions w
    = (Ok (current, withRevision equivalent (rev_revision candidate), collisionCount,
           revisions), w')
    /\ In equivalent revisions
    /\ EqualRevision equivalent candidate = true
    /\ rev_revision candidate = nextRevision revisions
    /\ w_log w' = w_log w ++ [UpdateControllerRevision equivalent (rev_revision candidate)]
    /\ createdRevisions (w_log w') = createdRevisions (w_log w)
    /\ List.length (w_store w') = List.length (w_store w).
Proof.
  intros Hsorted Hcc Hnew Hne Hlast equivalent Hok.
  assert (Hin : In equivalent (FindEqualRevisions revisions candidate)).
  { unfold equivalent. destruct (exists_last Hne) as [l' [x E]]. rewrite E.
    rewrite last_last. apply in_or_app. right. now left. }
  apply filter_In in Hin. destruct Hin as [Hin Heqv].
  assert (Hrevs : revisions <> []) by (intros ->; contradiction).
  assert (Hpos : (0 <? len (FindEqualRevisions revisions candidate)) = true).
  { apply Z.ltb_lt. unfold len.
    destruct (FindEqualRevisions revisions candidate); [congruence | simpl; lia]. }
  unfold getStatefulSetRevisions. rewrite Hsorted, <- Hcc, Hnew, Hpos.
  rewrite (index_last revisions candidate Hrevs).
  rewrite (index_last _ candidate Hne). fold equivalent.
  rewrite (EqualRevision_via _ _ _ Heqv), Hlast.
  unfold controllerHistory_UpdateControllerRevision, issue. rewrite Hok.
  eexists. eexists. split; [reflexivity |].
  split; [exact Hin |]. split; [exact Heqv |].
  split; [unfold newRevision in Hnew; injection Hnew as <-; reflexivity |].
  simpl. split; [reflexivity |]. split.
  - unfold createdRevisions. rewrite flat_map_app. simpl. now rewrite app_nil_r.
  - now rewrite length_map.
Qed.

End RevisionManager.

(** C6 on scenario S5: revisions [R1 (A), R2 (B)], template now A. *)
Lemma rollback_S5 :
  exists current w',
    getStatefulSetRevisions demoName noFailure S5_set [R1; R2] (mkWorld [R1; R2] [])
    = (Ok (current, withRevision R1 3, 0, [R1; R2]), w')
    /\ In R1 [R1; R2]
    /\ EqualRevision R1 (mkRevision "web-A-0" 3 0 (Some "A")) = true
    /\ 3 = nextRevision [R1; R2]
    /\ w_log w' = [UpdateControllerRevision R1 3]
    /\ createdRevisions (w_log w') = []
    /\ List.length (w_store w') = 2%nat.
Proof.
  apply (rollback_bumps_the_equivalent_revision demoName noFailure S5_set [R1; R2]
           (mkWorld [R1; R2] []) 0 (mkRevision "web-A-0" 3 0 (Some "A")));
    vm_compute; congruence.
Defined.

(** ** History truncation *)

Section Truncation.

Variable fails : list Call -> Call -> bool.

Lemma filter_filter {A : Type} (f g : A -> bool) (l : list A) :
  filter g (filter f l) = filter (fun x => f x && g x) l.
Proof.
  induction l as [| x l IH]; simpl; [reflexivity |].
  destruct (f x); simpl; [destruct (g x); now rewrite IH | exact IH].
Qed.

Lemma deleteRevisions_ok (history : list ControllerRevision) (w w' : World) :
  deleteRevisions fails history w = (None, w') ->
  w_log w' = w_log w ++ map DeleteControllerRevision history
  /\ w_store w' = filter (survives history) (w_store w).
Proof.
  revert w. induction history as [| d rest IH]; simpl; intros w H.
  - injection H as <-. rewrite app_nil_r. split; [reflexivity |].
    unfold survives. simpl. induction (w_store w) as [| x l IHl]; simpl; congruence.
  - unfold controllerHistory_DeleteControllerRevision, issue in H.
    destruct (fails (w_log w) (DeleteControllerRevision d)); [discriminate |].
    apply IH in H. simpl in H. destruct H as [Hlog Hstore]. split.
    + rewrite Hlog, <- app_assoc. reflexivity.
    + rewrite Hstore, filter_filter. apply filter_ext. intros r.
      unfold survives. simpl. now rewrite negb_orb.
Qed.

Lemma survives_not_deleted (deleted : list ControllerRevision) (r : ControllerRevision) :
  In r deleted -> survives deleted r = false.
Proof.
  intros Hin. unfold survives. apply negb_false_iff. apply existsb_exists.
  exists r. split; [exact Hin | apply String.eqb_refl].
Qed.

Lemma liveNames_eq (pods : list Pod) (current update : ControllerRevision) :
  liveNames pods current update
  = [rev_name current; rev_name update] ++ map getPodRevision pods.
Proof.
  unfold liveNames. generalize [rev_name current; rev_name update].
  induction pods as [| pod rest IH]; intros l; simpl.
  - now rewrite app_nil_r.
  - rewrite IH, <- app_assoc. reflexivity.
Qed.

Lemma isLive_iff (live : list string) (name : string) :
  isLive live name = true <-> In name live.
Proof.
  unfold isLive. rewrite existsb_exists. split.
  - intros [x [Hin Heq]]. apply String.eqb_eq in Heq. now subst.
  - intros Hin. exists name. split; [exact Hin | apply String.eqb_refl].
Qed.

(** The names the loop of lines 144-151 collects are those of the live
    revisions. *)
Lemma isLive_liveRevision (pods : list Pod) (current update r : ControllerRevision) :
  isLive (liveNames pods current update) (rev_name r) = liveRevision pods current update r.
Proof.
  unfold isLive, liveRevision. rewrite liveNames_eq. simpl.
  rewrite orb_assoc. f_equal.
  induction pods as [| pod rest IH]; simpl; [reflexivity | now rewrite IH].
Qed.

(** C7. History truncation, for a limit H >= 0.  The non-live revisions are
    those of the list whose name is neither the current nor the update
    revision's nor the tag of an observed replica.  If there are at most H
    of them, nothing is called.  If there are more and the truncation
    succeeds, the calls issued are exactly the deletes of the first
    (count - H) non-live revisions, in the order of the list; with the list
    sorted these come in ascending Revision and are the ones of lowest
    Revision; H non-live revisions of the list are kept; and in a store
    with unique names whose non-live records were all listed, at most H
    non-live records remain. *)
Theorem truncateHistory_keeps_the_limit
    (set : StatefulSet) (pods : list Pod) (revisions : list ControllerRevision)
    (current update : ControllerRevision) (w : World) :
  0 <= set_historyLimit set ->
  let nonLive := fun r => negb (liveRevision pods current update r) in
  let history := filter nonLive revisions in
  let k := Z.to_nat (len history - set_historyLimit set) in
  (len history <= set_historyLimit set ->
   truncateHistory fails set pods revisions current update w = (Ok tt, w))
  /\
  (set_historyLimit set < len history ->
   forall w', truncateHistory fails set pods revisions current update w = (Ok tt, w') ->
     w_log w' = w_log w ++ map DeleteControllerRevision (firstn k history)
     /\ Z.of_nat (List.length (firstn k history)) = len history - set_historyLimit set
     /\ history = firstn k history ++ skipn k history
     /\ len (skipn k history) = set_historyLimit set
     /\ (StronglySorted byRevision revisions ->
         StronglySorted byRevision (firstn k history)
         /\ forall d r, In d (firstn k history) -> In r (skipn k history) -> byRevision d r)
     /\ (NoDup (map rev_name (w_store w)) ->
         (forall r, In r (w_store w) -> nonLive r = true -> In r revisions) ->
         len (filter nonLive (w_store w')) <= set_historyLimit set)).
Proof.
  intros Hlimit nonLive history k.
  assert (Hcode : filter (fun r => negb (isLive (liveNames pods current update) (rev_name r)))
                         revisions = history).
  { apply filter_ext. intros r. unfold nonLive. now rewrite isLive_liveRevision. }
  split.
  - intros Hle. unfold truncateHistory. cbn zeta. rewrite Hcode.
    apply Z.leb_le in Hle. now rewrite Hle.
  - intros Hgt w' Hrun. unfold truncateHistory in Hrun.
    cbn zeta in Hrun. rewrite Hcode in Hrun.
    destruct (Z.leb_spec (len history) (set_historyLimit set)) as [Hle | _]; [lia |].
    destruct (Z.ltb_spec (len revisions) (len history - set_historyLimit set));
      [discriminate |].
    fold k in Hrun.
    destruct (deleteRevisions fails (firstn k history) w) as [[err |] w1] eqn:Hdel;
      [discriminate |].
    destruct (Z.ltb_spec (len history) (len history - set_historyLimit set));
      [discriminate |].
    injection Hrun as <-.
    apply deleteRevisions_ok in Hdel. destruct Hdel as [Hlog Hstore].
    assert (Hk : (k <= List.length history)%nat) by (unfold k, len in *; lia).
    assert (Hkept : len (skipn k history) = set_historyLimit set).
    { unfold len. rewrite length_skipn. unfold k, len in *. lia. }
    split; [exact Hlog |].
    split; [rewrite length_firstn; unfold k, len in *; lia |].
    split; [symmetry; apply firstn_skipn |].
    split; [exact Hkept |].
    split.
    + intros Hsorted.
      assert (Hh : StronglySorted byRevision (firstn k history ++ skipn k history)).
      { rewrite firstn_skipn. unfold history. now apply StronglySorted_filter. }
      split; [exact (StronglySorted_app_l _ _ _ Hh) |].
      intros d r Hd Hr.
      exact (StronglySorted_app_le byRevision _ _ Hh d r Hd Hr).
    + intros Hnames Hlisted. rewrite <- Hkept. unfold len. apply inj_le.
      apply NoDup_incl_length.
      * apply NoDup_filter. rewrite Hstore. apply NoDup_filter.
        eapply NoDup_map_inv. exact Hnames.
      * intros r Hr. apply filter_In in Hr. destruct Hr as [Hr Hnl].
        rewrite Hstore in Hr. apply filter_In in Hr. destruct Hr as [Hr Hsurv].
        assert (Hh : In r history).
        { unfold history. apply filter_In. split; [now apply Hlisted | exact Hnl]. }
        rewrite <- (firstn_skipn k history) in Hh. apply in_app_or in Hh.
        destruct Hh as [Hh | Hh]; [| exact Hh].
        apply survives_not_deleted in Hh. congruence.
Qed.

End Truncation.

(** ** The rolling-update phase *)

Section RollingUpdate.

Variable fails : list Call -> Call -> bool.
Variable set : StatefulSet.
Variable updateRevision : ControllerRevision.

Lemma onCurrentReplicas_id (status : StatefulSetStatus) :
  onCurrentReplicas (fun c => c) status = status.
Proof. now destruct status. Qed.

Lemma onCurrentReplicas_compose (f g : Z -> Z) (status : StatefulSetStatus) :
  onCurrentReplicas f (onCurrentReplicas g status)
  = onCurrentReplicas (fun c => f (g c)) status.
Proof. reflexivity. Qed.

Lemma onCurrentReplicas_ext (f g : Z -> Z) (status : StatefulSetStatus) :
  (forall c, f c = g c) -> onCurrentReplicas f status = onCurrentReplicas g status.
Proof. intros H. unfold onCurrentReplicas. now rewrite H. Qed.

Lemma updateTargets_none (pods : list Pod) (updateMin : Z) (n : nat) :
  Z.of_nat n <= updateMin -> updateTargets updateRevision pods updateMin n = [].
Proof.
  intros H. unfold updateTargets. rewrite skipn_all2; [reflexivity |].
  rewrite length_firstn. lia.
Qed.

Lemma updateTargets_step (pods : list Pod) (updateMin : Z) (n : nat) (pod : Pod) :
  updateMin <= Z.of_nat n ->
  index pods (Z.of_nat n) = Some pod ->
  updateTargets updateRevision pods updateMin (S n)
  = if needsUpdate updateRevision pod
    then pod :: updateTargets updateRevision pods updateMin n
    else updateTargets updateRevision pods updateMin n.
Proof.
  intros Hmin Hidx. unfold updateTargets.
  pose proof (index_nat_length _ _ _ Hidx) as Hlen.
  rewrite (index_nat_app _ _ _ Hidx).
  rewrite skipn_app, length_firstn.
  replace (Z.to_nat updateMin - Nat.min n (List.length pods))%nat with O by lia.
  simpl. rewrite rev_app_distr. simpl. reflexivity.
Qed.

(** C10. The rolling-update loop, on every platform.  It panics only when
    started beyond the end of the list or with a negative partition;
    otherwise it hands a status back.  Its targets are the
    pods at positions [n - 1] down to [updateMin] that do not match the
    update revision and are not terminating, whatever their relation to the
    current revision.  If the loop falls through, it has issued a delete for
    every target and decremented CurrentReplicas once per target.  If it
    returns an error, the delete of target [k] failed, and CurrentReplicas
    has been decremented [k + 1] times: also for the delete that failed,
    since the decrement precedes the call. *)
Theorem rollingUpdate_decrements_before_delete
    (pods : list Pod) (updateMin : Z) (n : nat)
    (status : StatefulSetStatus) (w : World) :
  let targets := updateTargets updateRevision pods updateMin n in
  match rollingUpdate fails set updateRevision pods updateMin n status w with
  | Next _ status' w' =>
      w_log w' = w_log w ++ map DeleteStatefulPod targets
      /\ status' = onCurrentReplicas (Nat.iter (List.length targets) dec32) status
  | Return err status' w' =>
      exists k pod,
        nth_error targets k = Some pod
        /\ err = Some (CallFailed (DeleteStatefulPod pod))
        /\ w_log w' = w_log w ++ map DeleteStatefulPod (firstn (S k) targets)
        /\ status' = onCurrentReplicas (Nat.iter (S k) dec32) status
  | Crash => (List.length pods < n)%nat \/ updateMin < 0
  end.
Proof.
  revert status w. induction n as [| target IH]; intros status w; cbn zeta.
  - simpl. destruct (Z.leb_spec updateMin (-1)) as [Hneg | Hmin]; [right; lia |].
    unfold ret. rewrite updateTargets_none by (simpl; lia). simpl.
    rewrite app_nil_r. split; [reflexivity |]. now destruct status.
  - simpl. destruct (Z.leb_spec updateMin (Z.of_nat target)) as [Hmin | Hmin].
    + destruct (index pods (Z.of_nat target)) as [pod |] eqn:Hidx.
      2: { left. unfold index in Hidx.
           destruct (Z.ltb_spec (Z.of_nat target) 0) as [Hlt | _]; [lia |].
           rewrite Nat2Z.id in Hidx. apply nth_error_None in Hidx. lia. }
      rewrite (updateTargets_step _ _ _ _ Hmin Hidx).
      unfold bind, when. fold (needsUpdate updateRevision pod).
      destruct (needsUpdate updateRevision pod).
      * unfold modify, orReturn, podControl_DeleteStatefulPod, issue.
        destruct (fails (w_log w) (DeleteStatefulPod pod)).
        -- exists O, pod. simpl. repeat split; reflexivity.
        -- specialize (IH (onCurrentReplicas dec32 status)
                          (logCall (DeleteStatefulPod pod) w)).
           cbn zeta in IH.
           destruct (rollingUpdate _ _ _ _ _ _ _ _) as [[] status' w' | err status' w' |];
             [| | lia].
           ++ destruct IH as [Hlog Hst]. split.
              ** rewrite Hlog. simpl. rewrite <- app_assoc. reflexivity.
              ** rewrite Hst, onCurrentReplicas_compose.
                 apply onCurrentReplicas_ext. intros c.
                 simpl List.length. now rewrite Nat.iter_succ_r.
           ++ destruct IH as [k [p [Hnth [Herr [Hlog Hst]]]]].
              exists (S k), p. split; [exact Hnth |]. split; [exact Herr |]. split.
              ** rewrite Hlog. simpl. rewrite <- app_assoc. reflexivity.
              ** rewrite Hst, onCurrentReplicas_compose.
                 apply onCurrentReplicas_ext. intros c.
                 now rewrite <- (Nat.iter_succ_r (S k)).
      * unfold ret. specialize (IH status w). cbn zeta in IH.
        destruct (rollingUpdate _ _ _ _ _ _ _ _) as [[] status' w' | err status' w' |];
          [exact IH | exact IH | lia].
    + unfold ret. rewrite updateTargets_none by lia. simpl.
      rewrite app_nil_r. split; [reflexivity |]. now destruct status.
Qed.

(** A delete for update only ever goes to a pod at a position of the list
    from [updateMin] on. *)
Lemma updateTargets_positions (pods : list Pod) (updateMin : Z) (n : nat) (pod : Pod) :
  In pod (updateTargets updateRevision pods updateMin n) ->
  exists i, (Z.to_nat updateMin <= i < n)%nat /\ nth_error pods i = Some pod.
Proof.
  unfold updateTargets. intros H. apply filter_In in H. destruct H as [H _].
  apply in_rev in H. apply In_nth_error in H. destruct H as [j Hj].
  rewrite nth_error_skipn, nth_error_firstn in Hj.
  destruct (Nat.ltb_spec (Z.to_nat updateMin + j) n) as [Hlt | _]; [| discriminate].
  exists (Z.to_nat updateMin + j)%nat. split; [lia | exact Hj].
Qed.

(** When every pod's ordinal is at least its position in the list (as for
    distinct ordinals listed in ascending order), the pods deleted for update
    have ordinals from the partition on. *)
Lemma updateTargets_above_partition (pods : list Pod) (updateMin : Z) (n : nat) (pod : Pod) :
  (forall i p, nth_error pods i = Some p -> Z.of_nat i <= getOrdinal p) ->
  In pod (updateTargets updateRevision pods updateMin n) ->
  updateMin <= getOrdinal pod.
Proof.
  intros Hord H. apply updateTargets_positions in H. destruct H as [i [Hi Hnth]].
  specialize (Hord i pod Hnth). lia.
Qed.

End RollingUpdate.

(** ** What a pass adds to the log *)

Lemma statusWrites_app (l1 l2 : list Call) :
  statusWrites (l1 ++ l2) = statusWrites l1 ++ statusWrites l2.
Proof. unfold statusWrites. apply flat_map_app. Qed.

Lemma extends_refl (w : World) : extends w w.
Proof. exists []. now rewrite app_nil_r. Qed.

Lemma extends_trans (w1 w2 w3 : World) :
  extends w1 w2 -> extends w2 w3 -> extends w1 w3.
Proof.
  intros [l1 [H1 Q1]] [l2 [H2 Q2]]. exists (l1 ++ l2). split.
  - now rewrite H2, H1, app_assoc.
  - now rewrite statusWrites_app, Q1, Q2.
Qed.

Lemma extends_statusWrites (w w' : World) :
  extends w w' -> statusWrites (w_log w') = statusWrites (w_log w).
Proof.
  intros [l [H Q]]. now rewrite H, statusWrites_app, Q, app_nil_r.
Qed.

Lemma extends_logCall (c : Call) (w : World) :
  statusWrites [c] = [] -> extends w (logCall c w).
Proof. intros H. exists [c]. now split. Qed.

Lemma extends_setStore (s : list ControllerRevision) (w w' : World) :
  extends w w' -> extends w (setStore s w').
Proof. intros [l H]. exists l. exact H. Qed.

Create HintDb drv discriminated.

Section Extension.

Variable fails : list Call -> Call -> bool.

Lemma issue_extends (c : Call) (w : World) :
  statusWrites [c] = [] -> extends w (snd (issue fails c w)).
Proof.
  intros H. unfold issue. destruct (fails (w_log w) c); simpl; now apply extends_logCall.
Qed.

Context {A B : Type} (bad : Prop).

Lemma drvExt_ret (a : A) : drvExt bad (ret a).
Proof. intros status w. apply extends_refl. Qed.

Lemma drvExt_bind (m : Drv A) (f : A -> Drv B) :
  drvExt bad m -> (forall a, drvExt bad (f a)) -> drvExt bad (bind m f).
Proof.
  intros Hm Hf status w. unfold bind. specialize (Hm status w).
  destruct (m status w) as [a status' w' | err status' w' |]; simpl in *; auto.
  specialize (Hf a status' w').
  destruct (f a status' w'); simpl in *; eauto using extends_trans.
Qed.

Lemma drvExt_returnStatus (err : option error) : drvExt bad (@returnStatus A err).
Proof. intros status w. apply extends_refl. Qed.

Lemma drvExt_crash : bad -> drvExt bad (@crash A).
Proof. intros H status w. exact H. Qed.

End Extension.

Lemma drvExt_modify (bad : Prop) (f : StatefulSetStatus -> StatefulSetStatus) :
  drvExt bad (modify f).
Proof. intros status w. apply extends_refl. Qed.

Lemma drvExt_effect (bad : Prop) (f : World -> World) :
  (forall w, extends w (f w)) -> drvExt bad (effect f).
Proof. intros H status w. apply H. Qed.

Lemma drvExt_orReturn (bad : Prop) (call : World -> option error * World) :
  (forall w, extends w (snd (call w))) -> drvExt bad (orReturn call).
Proof.
  intros H status w. unfold orReturn. specialize (H w).
  destruct (call w) as [[err |] w']; exact H.
Qed.

Lemma drvExt_when (bad : Prop) (b : bool) (m : Drv unit) :
  drvExt bad m -> drvExt bad (when b m).
Proof. intros H. destruct b; [exact H | apply drvExt_ret]. Qed.

Lemma drvExt_weaken {A : Type} (bad bad' : Prop) (m : Drv A) :
  (bad -> bad') -> drvExt bad m -> drvExt bad' m.
Proof.
  intros Hb H status w. specialize (H status w).
  destruct (m status w); simpl in *; auto.
Qed.

#[local] Hint Resolve drvExt_ret drvExt_returnStatus drvExt_modify drvExt_when
  extends_refl : drv.

Section DriverExtension.

Variable fails : list Call -> Call -> bool.
Variable set : StatefulSet.
Variables currentRevision updateRevision : ControllerRevision.
Variables currentSet updateSet : StatefulSet.

Lemma drvExt_delete (bad : Prop) (pod : Pod) :
  drvExt bad (orReturn (podControl_DeleteStatefulPod fails set pod)).
Proof. apply drvExt_orReturn. intros w. now apply issue_extends. Qed.

Lemma drvExt_create (bad : Prop) (pod : Pod) :
  drvExt bad (orReturn (podControl_CreateStatefulPod fails set pod)).
Proof. apply drvExt_orReturn. intros w. now apply issue_extends. Qed.

Lemma drvExt_update (bad : Prop) (s : StatefulSet) (pod : Pod) :
  drvExt bad (orReturn (podControl_UpdateStatefulPod fails s pod)).
Proof. apply drvExt_orReturn. intros w. now apply issue_extends. Qed.

Lemma drvExt_countRevision (bad : Prop) (f : Z -> Z) (pod : Pod) :
  drvExt bad (countRevision currentRevision updateRevision f pod).
Proof. unfold countRevision. apply drvExt_bind; auto with drv. Qed.

Lemma drvExt_gather (bad : Prop) (pods unhealthy : list Pod) :
  drvExt bad (gather currentRevision updateRevision pods unhealthy).
Proof.
  revert unhealthy. induction pods as [| pod rest IH]; intros unhealthy; simpl.
  - apply drvExt_ret.
  - repeat (apply drvExt_bind; [| intros _]); auto using drvExt_countRevision with drv.
Qed.

Lemma drvExt_repair (bad : Prop) (pod : Pod) :
  drvExt bad (repair fails set currentRevision updateRevision currentSet updateSet pod).
Proof.
  unfold repair. apply drvExt_bind.
  - destruct (isFailed pod); [| apply drvExt_ret].
    repeat (apply drvExt_bind; [| intros _]);
      auto using drvExt_countRevision, drvExt_delete with drv.
    apply drvExt_effect. intros w. now apply extends_logCall.
  - intros pod'. destruct (negb (isCreated pod')).
    + repeat (apply drvExt_bind; [| intros _]);
        auto using drvExt_countRevision, drvExt_create with drv.
    + destruct (identityMatches set pod' && storageMatches set pod');
        auto using drvExt_update with drv.
Qed.

Lemma drvExt_repairAll (bad : Prop) (unhealthy : list Pod) :
  drvExt bad (repairAll fails set currentRevision updateRevision currentSet updateSet
                        unhealthy).
Proof.
  induction unhealthy as [| pod rest IH]; simpl.
  - apply drvExt_ret.
  - apply drvExt_bind; [apply drvExt_repair | intros _; exact IH].
Qed.

(** The scale-down loop panics only when started past the end of the list. *)
Lemma drvExt_scaleDown (pods : list Pod) (n : nat) (needToDelete : Z) :
  drvExt (List.length pods < n)%nat
         (scaleDown fails set currentRevision updateRevision pods n needToDelete).
Proof.
  revert needToDelete. induction n as [| target IH]; intros needToDelete; simpl.
  - apply drvExt_ret.
  - destruct (0 <? needToDelete); [| apply drvExt_ret].
    destruct (index pods (Z.of_nat target)) as [pod |] eqn:Hidx.
    + assert (Hw : drvExt (List.length pods < S target)%nat
                     (scaleDown fails set currentRevision updateRevision pods target
                                (needToDelete - 1))).
      { eapply drvExt_weaken; [| apply IH]. lia. }
      destruct (isTerminating pod); [exact Hw |].
      repeat (apply drvExt_bind; [| intros _]);
        auto using drvExt_countRevision, drvExt_delete with drv.
    + apply drvExt_crash. unfold index in Hidx.
      destruct (Z.ltb_spec (Z.of_nat target) 0); [lia |].
      rewrite Nat2Z.id in Hidx. apply nth_error_None in Hidx. lia.
Qed.

(** The rolling-update loop panics only when started past the end of the
    list or with a negative partition. *)
Lemma drvExt_rollingUpdate (pods : list Pod) (updateMin : Z) (n : nat) :
  drvExt ((List.length pods < n)%nat \/ updateMin < 0)
         (rollingUpdate fails set updateRevision pods updateMin n).
Proof.
  induction n as [| target IH]; simpl.
  - destruct (Z.leb_spec updateMin (-1)); [| apply drvExt_ret].
    apply drvExt_crash. right. lia.
  - destruct (updateMin <=? Z.of_nat target); [| apply drvExt_ret].
    destruct (index pods (Z.of_nat target)) as [pod |] eqn:Hidx.
    + apply drvExt_bind.
      * apply drvExt_when. apply drvExt_bind; [apply drvExt_modify |].
        intros _. apply drvExt_delete.
      * intros _. eapply drvExt_weaken; [| apply IH]. intros [H | H]; [left; lia | now right].
    + apply drvExt_crash. left. unfold index in Hidx.
      destruct (Z.ltb_spec (Z.of_nat target) 0); [lia |].
      rewrite Nat2Z.id in Hidx. apply nth_error_None in Hidx. lia.
Qed.

(** Scale-down and update panic only with a negative partition. *)
Lemma drvExt_terminate (pods : list Pod) :
  drvExt (partitionOf set < 0) (terminate fails set currentRevision updateRevision pods).
Proof.
  unfold terminate.
  apply drvExt_bind.
  { eapply drvExt_weaken; [| apply drvExt_scaleDown]. lia. }
  intros _.
  apply drvExt_bind; [destruct (StrategyType_eqb _ _); auto with drv | intros _].
  apply drvExt_bind; [| intros _; apply drvExt_returnStatus].
  eapply drvExt_weaken; [| apply drvExt_rollingUpdate]. intros [H | H]; [lia | exact H].
Qed.

(** The driver panics only with a negative partition. *)
Lemma drvExt_reconcile (pods : list Pod) :
  drvExt (partitionOf set < 0)
         (reconcile fails set currentRevision updateRevision currentSet updateSet pods).
Proof.
  unfold reconcile.
  apply drvExt_bind; [apply drvExt_gather | intros unhealthy].
  apply drvExt_bind; [intros status w; apply extends_refl | intros extra].
  apply drvExt_bind; [destruct (set_deleting set); auto with drv | intros _].
  apply drvExt_bind; [apply drvExt_repairAll | intros _].
  apply drvExt_terminate.
Qed.

End DriverExtension.

(** ** The pass as a whole *)

Section Pass.

Variable revisionName : string -> option Template -> Z -> string.
Variable fails : list Call -> Call -> bool.

Lemma ListRevisions_extends (set : StatefulSet) (w : World) :
  extends w (snd (ListRevisions fails set w)).
Proof.
  unfold ListRevisions, controllerHistory_ListControllerRevisions.
  destruct (set_selector_ok set); [| apply extends_refl].
  pose proof (issue_extends fails ListControllerRevisions w eq_refl) as H.
  destruct (issue fails ListControllerRevisions w) as [[err |] w']; exact H.
Qed.

Lemma getStatefulSetRevisions_extends (set : StatefulSet)
    (revisions : list ControllerRevision) (w : World) :
  extends w (snd (getStatefulSetRevisions revisionName fails set revisions w)).
Proof.
  unfold getStatefulSetRevisions, newRevision.
  set (sorted := SortControllerRevisions revisions).
  set (candidate := mkRevision _ _ _ _).
  destruct (0 <? len (FindEqualRevisions sorted candidate)).
  - destruct (index sorted _) as [lastR |]; [| apply extends_refl].
    destruct (index (FindEqualRevisions sorted candidate) _) as [lastEqual |];
      [| apply extends_refl].
    destruct (EqualRevision lastR lastEqual); [apply extends_refl |].
    unfold controllerHistory_UpdateControllerRevision.
    match goal with
    | |- context [issue fails ?c w] =>
        pose proof (issue_extends fails c w eq_refl) as H;
        destruct (issue fails c w) as [[err |] w']
    end; simpl in *; [exact H |].
    destruct H as [l Hl]. exists l. exact Hl.
  - unfold controllerHistory_CreateControllerRevision.
    match goal with
    | |- context [issue fails ?c w] =>
        pose proof (issue_extends fails c w eq_refl) as H;
        destruct (issue fails c w) as [[err |] w']
    end; [exact H |].
    match goal with
    | |- context [persistRevision ?a ?b ?c ?d ?e ?f] =>
        destruct (persistRevision a b c d e f) as [[[u c'] | e' |] store']
    end; simpl in *; destruct H as [l Hl]; exists l; exact Hl.
Qed.

Lemma updateStatefulSet_extends (set : StatefulSet)
    (currentRevision updateRevision : ControllerRevision) (collisionCount : Z)
    (pods : list Pod) (w w' : World) (status : option StatefulSetStatus)
    (err : option error) :
  updateStatefulSet fails set currentRevision updateRevision collisionCount pods w
  = Finished status err w' ->
  extends w w'.
Proof.
  unfold updateStatefulSet.
  destruct (ApplyRevision set currentRevision) as [currentSet |];
    [| intros [= _ _ <-]; apply extends_refl].
  destruct (ApplyRevision set updateRevision) as [updateSet |];
    [| intros [= _ _ <-]; apply extends_refl].
  match goal with
  | |- context [reconcile ?f ?s ?c ?u ?cs ?us ?p ?st ?w0] =>
      pose proof (drvExt_reconcile f s c u cs us p st w0) as H;
      destruct (reconcile f s c u cs us p st w0)
  end; simpl in H; intros [= _ _ <-] || discriminate; exact H.
Qed.

(** When the driver hands back a non-nil error, [UpdateStatefulSet] returns
    that error at once, on the platform as the driver left it, and the pass
    has written no status. *)
Lemma driver_error_ends_the_pass
    (set : StatefulSet) (pods : list Pod) (w w1 w2 w3 : World)
    (listed revisions : list ControllerRevision)
    (currentRevision updateRevision : ControllerRevision) (collisionCount : Z)
    (status : option StatefulSetStatus) (err : error) :
  ListRevisions fails set w = (Ok listed, w1) ->
  getStatefulSetRevisions revisionName fails set (SortControllerRevisions listed) w1
  = (Ok (currentRevision, updateRevision, collisionCount, revisions), w2) ->
  updateStatefulSet fails set currentRevision updateRevision collisionCount pods w2
  = Finished status (Some err) w3 ->
  UpdateStatefulSet revisionName fails set pods w = (Err err, w3)
  /\ statusWrites (w_log w3) = statusWrites (w_log w).
Proof.
  intros Hlist Hrevs Hdrv. split.
  - unfold UpdateStatefulSet. rewrite Hlist, Hrevs, Hdrv. now destruct status.
  - apply extends_statusWrites.
    apply extends_trans with w1.
    { pose proof (ListRevisions_extends set w) as H. now rewrite Hlist in H. }
    apply extends_trans with w2.
    { pose proof (getStatefulSetRevisions_extends set (SortControllerRevisions listed) w1) as H.
      now rewrite Hrevs in H. }
    eapply updateStatefulSet_extends. exact Hdrv.
Qed.

End Pass.

(** ** Recovery of a failed pod *)

Section FailedPod.

Variable fails : list Call -> Call -> bool.
Variable set : StatefulSet.
Variables currentRevision updateRevision : ControllerRevision.
Variables currentSet updateSet : StatefulSet.

Lemma countRevision_next (f : Z -> Z) (pod : Pod) (status : StatefulSetStatus) (w : World) :
  exists status',
    countRevision currentRevision updateRevision f pod status w = Next tt status' w.
Proof.
  unfold countRevision, bind, when, modify, ret.
  destruct (String.eqb _ _), (String.eqb _ _); eauto.
Qed.

Lemma gather_next (pods unhealthy : list Pod) (status : StatefulSetStatus) (w : World) :
  exists status',
    gather currentRevision updateRevision pods unhealthy status w
    = Next (unhealthy ++ filter (fun pod => negb (isHealthy pod)) pods) status' w.
Proof.
  revert unhealthy status. induction pods as [| pod rest IH]; intros unhealthy status; simpl.
  - rewrite app_nil_r. unfold ret. eauto.
  - unfold bind at 1. unfold modify at 1. unfold bind at 1.
    assert (H1 : exists s1, when (isRunningAndReady pod) (modify (onReadyReplicas inc32))
                                 (onReplicas inc32 status) w = Next tt s1 w).
    { unfold when, modify, ret. destruct (isRunningAndReady pod); eauto. }
    destruct H1 as [s1 ->]. unfold bind at 1.
    assert (H2 : exists s2, when (isCreated pod && negb (isTerminating pod))
                                 (countRevision currentRevision updateRevision inc32 pod)
                                 s1 w = Next tt s2 w).
    { unfold when, ret. destruct (isCreated pod && negb (isTerminating pod)); eauto.
      apply countRevision_next. }
    destruct H2 as [s2 ->].
    destruct (IH (if negb (isHealthy pod) then unhealthy ++ [pod] else unhealthy) s2)
      as [s3 ->].
    exists s3. f_equal.
    destruct (negb (isHealthy pod)); [now rewrite <- app_assoc | reflexivity].
Qed.

Lemma isFailed_not_healthy (pod : Pod) : isFailed pod = true -> isHealthy pod = false.
Proof.
  unfold isFailed, isHealthy, isRunningAndReady.
  destruct (pod_phase pod); try discriminate; reflexivity.
Qed.

(** Lines 329-367 on a failed pod, when the delete succeeds: the create of
    the replacement is issued, and the iteration ends or, if the create
    fails, the function returns. *)
Lemma repair_failed (pod : Pod) (status : StatefulSetStatus) (w : World) :
  isFailed pod = true ->
  fails (w_log w ++ [Eventf "RecreatingFailedPod" pod]) (DeleteStatefulPod pod) = false ->
  exists status' w',
    (repair fails set currentRevision updateRevision currentSet updateSet pod status w
     = Next tt status' w'
     \/ exists e,
          repair fails set currentRevision updateRevision currentSet updateSet pod status w
          = Return (Some e) status' w')
    /\ w_log w'
       = w_log w
         ++ [Eventf "RecreatingFailedPod" pod; DeleteStatefulPod pod;
             CreateStatefulPod
               (replacementOf currentRevision updateRevision currentSet updateSet pod)].
Proof.
  intros Hfailed Hdel. unfold repair. rewrite Hfailed.
  unfold bind, effect, orReturn, modify, ret, podControl_DeleteStatefulPod,
    podControl_CreateStatefulPod, issue, recorder_Eventf.
  simpl w_log. rewrite Hdel.
  match goal with
  | |- context [countRevision _ _ dec32 ?p ?s ?w0] =>
      destruct (countRevision_next dec32 p s w0) as [s1 ->]
  end.
  fold (replacementOf currentRevision updateRevision currentSet updateSet pod).
  replace (negb (isCreated
             (replacementOf currentRevision updateRevision currentSet updateSet pod)))
    with true by reflexivity.
  simpl w_log. rewrite <- app_assoc. simpl app.
  destruct (fails _ (CreateStatefulPod _)).
  - eexists. eexists. split; [right; eexists; reflexivity |].
    simpl. now rewrite <- !app_assoc.
  - match goal with
    | |- context [countRevision _ _ inc32 ?p ?s ?w0] =>
        destruct (countRevision_next inc32 p s w0) as [s2 ->]
    end.
    exists s2. eexists. split; [left; reflexivity |].
    simpl. now rewrite <- !app_assoc.
Qed.

Lemma bind_next {A B : Type} (m : Drv A) (f : A -> Drv B)
    (status status' : StatefulSetStatus) (w w' : World) (a : A) :
  m status w = Next a status' w' -> bind m f status w = f a status' w'.
Proof. intros H. unfold bind. now rewrite H. Qed.

Lemma bind_return {A B : Type} (m : Drv A) (f : A -> Drv B)
    (status status' : StatefulSetStatus) (w w' : World) (err : option error) :
  m status w = Return err status' w' -> bind m f status w = Return err status' w'.
Proof. intros H. unfold bind. now rewrite H. Qed.

Lemma bind_assoc {A B C : Type} (m : Drv A) (f : A -> Drv B) (g : B -> Drv C)
    (status : StatefulSetStatus) (w : World) :
  bind (bind m f) g status w = bind m (fun a => bind (f a) g) status w.
Proof. unfold bind. now destruct (m status w). Qed.

(** C3, amended.  For a single observed replica in Failed phase, on a set
    that is not being deleted and has a non-negative partition: when the
    delete succeeds, the pass finishes, and its first three calls are the
    event with reason "RecreatingFailedPod", the delete of the failed replica
    and, in the same pass, the create of its replacement, a pod not yet
    created at the same ordinal. *)
Theorem failed_pod_is_deleted_and_recreated
    (collisionCount : Z) (pod : Pod) (w : World) :
  isFailed pod = true ->
  set_deleting set = false ->
  0 <= partitionOf set ->
  ApplyRevision set currentRevision = Some currentSet ->
  ApplyRevision set updateRevision = Some updateSet ->
  fails (w_log w ++ [Eventf "RecreatingFailedPod" pod]) (DeleteStatefulPod pod) = false ->
  exists status err w' rest,
    updateStatefulSet fails set currentRevision updateRevision collisionCount [pod] w
    = Finished (Some status) err w'
    /\ w_log w'
       = w_log w
         ++ [Eventf "RecreatingFailedPod" pod; DeleteStatefulPod pod;
             CreateStatefulPod
               (replacementOf currentRevision updateRevision currentSet updateSet pod)]
         ++ rest
    /\ getOrdinal (replacementOf currentRevision updateRevision currentSet updateSet pod)
       = getOrdinal pod
    /\ isCreated (replacementOf currentRevision updateRevision currentSet updateSet pod)
       = false.
Proof.
  intros Hfailed Hdeleting Hpartition Hcur Hupd Hdel.
  unfold updateStatefulSet. rewrite Hcur, Hupd.
  match goal with
  | |- context [reconcile _ _ _ _ _ _ _ ?st _] => generalize st; intros status0
  end.
  unfold reconcile. rewrite Hdeleting.
  destruct (gather_next [pod] [] status0 w) as [s1 Hg].
  rewrite (bind_next _ _ _ _ _ _ _ Hg).
  simpl filter. rewrite (isFailed_not_healthy pod Hfailed). simpl negb. cbv iota.
  unfold bind at 1. unfold bind at 1. unfold ret at 1.
  simpl app. simpl repairAll.
  destruct (repair_failed pod s1 w Hfailed Hdel) as [s2 [w2 [[Hr | [e Hr]] Hlog2]]].
  - rewrite bind_assoc, (bind_next _ _ _ _ _ _ _ Hr).
    match goal with
    | |- context [bind ?m ?f s2 w2] =>
        assert (Hsafe : stepExt (partitionOf set < 0) w2 (bind m f s2 w2));
        [ apply drvExt_bind;
          [apply drvExt_repairAll | intros _; apply drvExt_terminate]
        | destruct (bind m f s2 w2) as [[] status' w' | err status' w' |] ]
    end; simpl in Hsafe; [| | lia];
      destruct Hsafe as [rest [Hrest _]];
      eexists; eexists; exists w', rest;
      (split; [reflexivity |]);
      (split; [rewrite Hrest, Hlog2, <- app_assoc; reflexivity |]);
      split; reflexivity.
  - rewrite bind_assoc, (bind_return _ _ _ _ _ _ _ Hr).
    exists s2, (Some e), w2, []. split; [reflexivity |].
    split; [rewrite Hlog2; reflexivity |]. split; reflexivity.
Qed.

End FailedPod.

(** ** The theorems at the scenarios *)

(** C3, amended, on scenario S6. *)
Lemma S6_failed_pod_recreated :
  exists status err w' rest,
    updateStatefulSet noFailure S6_set R1 R1 0 S6_pods (mkWorld [R1] [ListControllerRevisions])
    = Finished (Some status) err w'
    /\ w_log w' = [ListControllerRevisions]
                  ++ [Eventf "RecreatingFailedPod" (failedPod 1 "web-A-0");
                      DeleteStatefulPod (failedPod 1 "web-A-0");
                      CreateStatefulPod
                        (replacementOf R1 R1 S6_set S6_set (failedPod 1 "web-A-0"))]
                  ++ rest
    /\ getOrdinal (replacementOf R1 R1 S6_set S6_set (failedPod 1 "web-A-0")) = 1
    /\ isCreated (replacementOf R1 R1 S6_set S6_set (failedPod 1 "web-A-0")) = false.
Proof.
  apply (failed_pod_is_deleted_and_recreated noFailure S6_set R1 R1 S6_set S6_set 0
           (failedPod 1 "web-A-0") (mkWorld [R1] [ListControllerRevisions]));
    solve [reflexivity | vm_compute; congruence].
Defined.

(** C7 on a history of five revisions with limit 1 and one observed
    replica, tagged with R0: R3 is current, R4 is the update revision, R0 is
    live through the replica, R1 and R2 are not live; R1 alone is deleted,
    R0, of lower Revision, is spared, and one non-live revision remains. *)
Lemma truncate_five_revisions :
  let revisions := [R0; R1; R2; R3; R4] in
  let pods := [healthyPod 0 "web-Z-0"] in
  let nonLive := fun r => negb (liveRevision pods R3 R4 r) in
  let r := truncateHistory noFailure truncate_set pods revisions R3 R4
                           (mkWorld revisions []) in
  fst r = Ok tt
  /\ w_log (snd r) = [DeleteControllerRevision R1]
  /\ w_store (snd r) = [R0; R2; R3; R4]
  /\ len (filter nonLive (w_store (snd r))) <= 1.
Proof.
  intros revisions pods nonLive r.
  destruct (truncateHistory_keeps_the_limit noFailure truncate_set pods revisions R3 R4
              (mkWorld revisions [])) as [_ H].
  - vm_compute. congruence.
  - specialize (H eq_refl (snd r) eq_refl).
    destruct H as [Hlog [_ [_ [_ [_ Hbound]]]]].
    split; [reflexivity |]. split; [exact Hlog |]. split; [reflexivity |].
    apply Hbound.
    + repeat constructor; simpl; intuition discriminate.
    + intros x Hx _. exact Hx.
Defined.

(** The loop on a stray replica: one tagged neither with the current revision (R1)
    nor with the update revision (R2), on a platform where its delete fails:
    it was never counted as current, the delete fails, and the status handed
    back has CurrentReplicas = -1. *)
Example rolling_update_negative_current :
  let stray := healthyPod 0 "web-C-0" in
  updateStatefulSet (failDeleteOf 0)
    (mkSet "web" 2 false true 1 "B" (rolling 0) 10 publishedR1)
    R1 R2 0 [stray] (mkWorld [R1; R2] [])
  = Finished (Some (mkStatus 2 1 1 (-1) 0 "web-A-0" "web-B-0" (Some 0)))
             (Some (CallFailed (DeleteStatefulPod stray)))
             (mkWorld [R1; R2] [DeleteStatefulPod stray]).
Proof. reflexivity. Qed.

(** C10 on two replicas, a stray one at ordinal 0 tagged with R3 and one at
    ordinal 1 at the current revision R1, with update revision R2, on a
    platform where the delete of ordinal 0 fails: both replicas are targets;
    the delete of the second target fails after CurrentReplicas has been
    decremented twice, and the status is handed back. *)
Lemma stray_replica_is_discounted :
  let stray := healthyPod 0 "web-C-0" in
  let pods := [stray; healthyPod 1 "web-A-0"] in
  let status := mkStatus 2 2 2 1 0 "web-A-0" "web-B-0" (Some 0) in
  let targets := updateTargets R2 pods 0 2 in
  match rollingUpdate (failDeleteOf 0) S3_set R2 pods 0 2 status (mkWorld [R1; R2] []) with
  | Next _ status' w' =>
      w_log w' = [] ++ map DeleteStatefulPod targets
      /\ status' = onCurrentReplicas (Nat.iter (List.length targets) dec32) status
  | Return err status' w' =>
      exists k pod,
        nth_error targets k = Some pod
        /\ err = Some (CallFailed (DeleteStatefulPod pod))
        /\ w_log w' = [] ++ map DeleteStatefulPod (firstn (S k) targets)
        /\ status' = onCurrentReplicas (Nat.iter (S k) dec32) status
  | Crash => (List.length pods < 2)%nat \/ 0 < 0
  end.
Proof.
  intros stray pods status.
  exact (rollingUpdate_decrements_before_delete (failDeleteOf 0) S3_set R2 pods 0 2
           status (mkWorld [R1; R2] [])).
Defined.

(** The same, computed: CurrentReplicas goes from 1 to -1. *)
Example stray_replica_run :
  let stray := healthyPod 0 "web-C-0" in
  let second := healthyPod 1 "web-A-0" in
  rollingUpdate (failDeleteOf 0) S3_set R2 [stray; second] 0 2
                (mkStatus 2 2 2 1 0 "web-A-0" "web-B-0" (Some 0)) (mkWorld [R1; R2] [])
  = Return (Some (CallFailed (DeleteStatefulPod stray)))
           (mkStatus 2 2 2 (-1) 0 "web-A-0" "web-B-0" (Some 0))
           (mkWorld [R1; R2] [DeleteStatefulPod second; DeleteStatefulPod stray]).
Proof. reflexivity. Qed.

(** ** Call discipline of the driver *)

Section Discipline.

Variable fails : list Call -> Call -> bool.
Variable P : Call -> Prop.
Variable R : StatefulSetStatus -> StatefulSetStatus -> Prop.
Hypothesis R_refl : forall s, R s s.
Hypothesis R_trans : forall a b c, R a b -> R b c -> R a c.

Lemma follows_refl (status : StatefulSetStatus) (w : World) :
  follows P R status w status w.
Proof.
  split; [apply R_refl |]. split; [reflexivity |].
  exists []. split; [now rewrite app_nil_r | constructor].
Qed.

Lemma follows_trans (s1 s2 s3 : StatefulSetStatus) (w1 w2 w3 : World) :
  follows P R s1 w1 s2 w2 -> follows P R s2 w2 s3 w3 -> follows P R s1 w1 s3 w3.
Proof.
  intros [HR1 [Hs1 [l1 [Hl1 HP1]]]] [HR2 [Hs2 [l2 [Hl2 HP2]]]].
  split; [eauto |]. split; [congruence |].
  exists (l1 ++ l2). split.
  - now rewrite Hl2, Hl1, app_assoc.
  - apply Forall_app. now split.
Qed.

Lemma follows_call (c : Call) (status : StatefulSetStatus) (w : World) :
  P c -> follows P R status w status (logCall c w).
Proof.
  intros Hc. split; [apply R_refl |]. split; [reflexivity |].
  exists [c]. split; [reflexivity | now constructor].
Qed.

Lemma obeys_ret {A : Type} (bad : Prop) (a : A) : obeys P R bad (ret a).
Proof. intros status w. apply follows_refl. Qed.

Lemma obeys_returnStatus {A : Type} (bad : Prop) (err : option error) :
  obeys P R bad (@returnStatus A err).
Proof. intros status w. apply follows_refl. Qed.

Lemma obeys_crash {A : Type} (bad : Prop) : bad -> obeys P R bad (@crash A).
Proof. intros H status w. exact H. Qed.

Lemma obeys_bind {A B : Type} (bad : Prop) (m : Drv A) (f : A -> Drv B) :
  obeys P R bad m -> (forall a, obeys P R bad (f a)) -> obeys P R bad (bind m f).
Proof.
  intros Hm Hf status w. unfold bind. specialize (Hm status w).
  destruct (m status w) as [a status' w' | err status' w' |]; simpl in *; auto.
  specialize (Hf a status' w').
  destruct (f a status' w'); simpl in *; eauto using follows_trans.
Qed.

Lemma obeys_modify (bad : Prop) (f : StatefulSetStatus -> StatefulSetStatus) :
  (forall s, R s (f s)) -> obeys P R bad (modify f).
Proof.
  intros H status w. split; [apply H |]. split; [reflexivity |].
  exists []. split; [now rewrite app_nil_r | constructor].
Qed.

Lemma obeys_call (bad : Prop) (c : Call) :
  P c -> obeys P R bad (orReturn (issue fails c)).
Proof.
  intros Hc status w. unfold orReturn, issue.
  destruct (fails (w_log w) c); now apply follows_call.
Qed.

Lemma obeys_event (bad : Prop) (c : Call) :
  P c -> obeys P R bad (effect (logCall c)).
Proof. intros Hc status w. now apply follows_call. Qed.

Lemma obeys_when (bad : Prop) (b : bool) (m : Drv unit) :
  obeys P R bad m -> obeys P R bad (when b m).
Proof. intros H. destruct b; [exact H | apply obeys_ret]. Qed.

Lemma obeys_countRevision (bad : Prop) (currentRevision updateRevision : ControllerRevision)
    (f : Z -> Z) (pod : Pod) :
  (forall s, R s (onCurrentReplicas f s)) ->
  (forall s, R s (onUpdatedReplicas f s)) ->
  obeys P R bad (countRevision currentRevision updateRevision f pod).
Proof.
  intros Hc Hu. unfold countRevision.
  apply obeys_bind; [| intros _]; apply obeys_when; now apply obeys_modify.
Qed.

End Discipline.

Lemma obeys_mono {A : Type} (P P' : Call -> Prop)
    (R R' : StatefulSetStatus -> StatefulSetStatus -> Prop) (bad bad' : Prop) (m : Drv A) :
  (forall c, P c -> P' c) -> (forall s s', R s s' -> R' s s') -> (bad -> bad') ->
  obeys P R bad m -> obeys P' R' bad' m.
Proof.
  intros HP HR Hb H status w. specialize (H status w).
  destruct (m status w) as [a status' w' | err status' w' |]; simpl in *; auto;
    destruct H as [H1 [H2 [l [H3 H4]]]];
    (split; [auto |]); (split; [exact H2 |]);
    exists l; (split; [exact H3 |]); eapply Forall_impl; eauto.
Qed.

Lemma keepsHeader_refl (s : StatefulSetStatus) : keepsHeader s s.
Proof. unfold keepsHeader. tauto. Qed.

Lemma keepsHeader_trans (a b c : StatefulSetStatus) :
  keepsHeader a b -> keepsHeader b c -> keepsHeader a c.
Proof. unfold keepsHeader. intuition congruence. Qed.

Lemma keepsTotal_refl (s : StatefulSetStatus) : keepsTotal s s.
Proof. split; [apply keepsHeader_refl | reflexivity]. Qed.

Lemma keepsTotal_trans (a b c : StatefulSetStatus) :
  keepsTotal a b -> keepsTotal b c -> keepsTotal a c.
Proof.
  intros [H1 E1] [H2 E2]. split; [eapply keepsHeader_trans; eauto | congruence].
Qed.

Lemma keepsTotal_onCurrentReplicas (f : Z -> Z) (s : StatefulSetStatus) :
  keepsTotal s (onCurrentReplicas f s).
Proof. unfold keepsTotal, keepsHeader. simpl. tauto. Qed.

Lemma keepsTotal_onUpdatedReplicas (f : Z -> Z) (s : StatefulSetStatus) :
  keepsTotal s (onUpdatedReplicas f s).
Proof. unfold keepsTotal, keepsHeader. simpl. tauto. Qed.

Lemma keepsHeader_onReplicas (f : Z -> Z) (s : StatefulSetStatus) :
  keepsHeader s (onReplicas f s).
Proof. unfold keepsHeader. simpl. tauto. Qed.

Lemma keepsTotal_header (s s' : StatefulSetStatus) : keepsTotal s s' -> keepsHeader s s'.
Proof. now intros [H _]. Qed.

Lemma obeys_bind_yields {A B : Type} (P : Call -> Prop)
    (R : StatefulSetStatus -> StatefulSetStatus -> Prop) (bad : Prop)
    (Q : A -> Prop) (m : Drv A) (f : A -> Drv B) :
  (forall a b c, R a b -> R b c -> R a c) ->
  obeys P R bad m -> yields Q m -> (forall a, Q a -> obeys P R bad (f a)) ->
  obeys P R bad (bind m f).
Proof.
  intros Htrans Hm Hq Hf status w. unfold bind.
  specialize (Hm status w). specialize (Hq status w).
  destruct (m status w) as [a status' w' | err status' w' |]; simpl in *; auto.
  specialize (Hf a Hq status' w').
  destruct (f a status' w'); simpl in *; eauto using follows_trans.
Qed.

Lemma yields_ret {A : Type} (Q : A -> Prop) (a : A) : Q a -> yields Q (ret a).
Proof. intros H status w. exact H. Qed.

Lemma yields_bind {A B : Type} (Q : B -> Prop) (m : Drv A) (f : A -> Drv B) :
  (forall a, yields Q (f a)) -> yields Q (bind m f).
Proof.
  intros Hf status w. unfold bind.
  destruct (m status w) as [a status' w' | |]; [apply Hf | exact I | exact I].
Qed.

Ltac hdr :=
  first [ exact keepsHeader_refl | exact keepsHeader_trans
        | exact keepsTotal_refl | exact keepsTotal_trans ].

Section PhaseDiscipline.

Variable fails : list Call -> Call -> bool.
Variable set : StatefulSet.
Variables currentRevision updateRevision : ControllerRevision.
Variables currentSet updateSet : StatefulSet.

Lemma countRevision_eq (f : Z -> Z) (pod : Pod) (status : StatefulSetStatus) (w : World) :
  countRevision currentRevision updateRevision f pod status w
  = Next tt (counted currentRevision updateRevision f pod status) w.
Proof.
  unfold countRevision, counted, bind, when, modify, ret.
  destruct (String.eqb _ (rev_name currentRevision)),
           (String.eqb _ (rev_name updateRevision)); reflexivity.
Qed.

Lemma keepsTotal_counted (f : Z -> Z) (pod : Pod) (s : StatefulSetStatus) :
  keepsTotal s (counted currentRevision updateRevision f pod s).
Proof.
  unfold counted.
  destruct (String.eqb _ (rev_name currentRevision)),
           (String.eqb _ (rev_name updateRevision));
    unfold keepsTotal, keepsHeader; simpl; tauto.
Qed.

(** Lines 327-377 on one pod of the list. *)
Lemma obeys_repair (unhealthy : list Pod) (pod : Pod) :
  In pod unhealthy ->
  obeys (repairCall set unhealthy) keepsHeader False
        (repair fails set currentRevision updateRevision currentSet updateSet pod).
Proof.
  intros Hin. unfold repair.
  assert (Hcount : forall f p,
             obeys (repairCall set unhealthy) keepsHeader False
                   (countRevision currentRevision updateRevision f p)).
  { intros f p. apply obeys_countRevision; try hdr; intros s;
      apply keepsTotal_header;
      first [apply keepsTotal_onCurrentReplicas | apply keepsTotal_onUpdatedReplicas]. }
  assert (Htotal : forall f,
             obeys (repairCall set unhealthy) keepsHeader False (modify (onReplicas f))).
  { intros f. apply obeys_modify. apply keepsHeader_onReplicas. }
  assert (Hcreate : forall p, isCreated p = false ->
             obeys (repairCall set unhealthy) keepsHeader False
                   (orReturn (podControl_CreateStatefulPod fails set p) ;;
                    modify (onReplicas inc32) ;;
                    countRevision currentRevision updateRevision inc32 p)).
  { intros p Hp.
    apply obeys_bind; try hdr; [apply (obeys_call fails); try hdr; exact Hp |].
    intros _. apply obeys_bind; try hdr; [apply Htotal | intros _; apply Hcount]. }
  destruct (isFailed pod) eqn:Hfailed.
  - apply obeys_bind_yields
      with (Q := fun p => p = replacementOf currentRevision updateRevision
                                            currentSet updateSet pod).
    + exact keepsHeader_trans.
    + apply obeys_bind; try hdr;
        [apply obeys_event; try hdr; simpl; auto |].
      intros _. apply obeys_bind; try hdr;
        [apply (obeys_call fails); try hdr; simpl; auto |].
      intros _. apply obeys_bind; try hdr; [apply Hcount |].
      intros _. apply obeys_bind; try hdr; [apply Htotal |].
      intros _. apply obeys_ret. hdr.
    + repeat (apply yields_bind; intros _). now apply yields_ret.
    + intros p ->.
      replace (negb (isCreated (replacementOf currentRevision updateRevision
                                              currentSet updateSet pod)))
        with true by reflexivity.
      apply Hcreate. reflexivity.
  - apply obeys_bind_yields with (Q := fun p => p = pod).
    + exact keepsHeader_trans.
    + apply obeys_ret. hdr.
    + now apply yields_ret.
    + intros p ->. destruct (isCreated pod) eqn:Hcreated; simpl.
      * destruct (identityMatches set pod && storageMatches set pod) eqn:Hmatch.
        -- apply obeys_ret. hdr.
        -- apply (obeys_call fails); try hdr.
           simpl. unfold DeepCopy. auto.
      * now apply Hcreate.
Qed.

Lemma obeys_repairAll (unhealthy rest : list Pod) :
  incl rest unhealthy ->
  obeys (repairCall set unhealthy) keepsHeader False
        (repairAll fails set currentRevision updateRevision currentSet updateSet rest).
Proof.
  induction rest as [| pod rest IH]; intros Hincl; simpl.
  - apply obeys_ret. hdr.
  - apply obeys_bind; try hdr.
    + apply obeys_repair. apply Hincl. now left.
    + intros _. apply IH. intros p Hp. apply Hincl. now right.
Qed.

Lemma index_nat_nth {A : Type} (l : list A) (n : nat) :
  index l (Z.of_nat n) = nth_error l n.
Proof.
  unfold index. destruct (Z.ltb_spec (Z.of_nat n) 0); [lia |]. now rewrite Nat2Z.id.
Qed.

(** Lines 385-411: the deletes go to pods that are not terminating, at
    positions from [n - needToDelete] on; the total is not touched. *)
Lemma obeys_scaleDown (pods : list Pod) (n : nat) (needToDelete : Z) (b : Z) :
  b <= Z.of_nat n - needToDelete ->
  obeys (fun c => exists i pod,
             c = DeleteStatefulPod pod /\ nth_error pods i = Some pod
             /\ isTerminating pod = false /\ b <= Z.of_nat i)
        keepsTotal (List.length pods < n)%nat
        (scaleDown fails set currentRevision updateRevision pods n needToDelete).
Proof.
  revert needToDelete. induction n as [| target IH]; intros needToDelete Hb; simpl.
  - apply obeys_ret. hdr.
  - destruct (Z.ltb_spec 0 needToDelete) as [Hneed | _]; [| apply obeys_ret; hdr].
    rewrite index_nat_nth.
    destruct (nth_error pods target) as [pod |] eqn:Hnth.
    + assert (Hrec : obeys (fun c => exists i pod,
                               c = DeleteStatefulPod pod /\ nth_error pods i = Some pod
                               /\ isTerminating pod = false /\ b <= Z.of_nat i)
                           keepsTotal (List.length pods < S target)%nat
                           (scaleDown fails set currentRevision updateRevision pods target
                                      (needToDelete - 1))).
      { eapply obeys_mono; [| | | apply IH]; auto; lia. }
      destruct (isTerminating pod) eqn:Hterm; [exact Hrec |].
      apply obeys_bind; try hdr.
      * apply (obeys_call fails); try hdr. exists target, pod.
        repeat split; auto. lia.
      * intros _. apply obeys_bind; try hdr; [| intros _; exact Hrec].
        intros status w. rewrite countRevision_eq. simpl.
        split; [apply keepsTotal_counted |]. split; [reflexivity |].
        exists []. split; [now rewrite app_nil_r | constructor].
    + apply obeys_crash. apply nth_error_None in Hnth. lia.
Qed.

(** Lines 425-438: the deletes go to pods that are not terminating, at
    positions from [updateMin] on; the total is not touched. *)
Lemma obeys_rollingUpdate (pods : list Pod) (updateMin : Z) (n : nat) :
  obeys (fun c => exists i pod,
             c = DeleteStatefulPod pod /\ nth_error pods i = Some pod
             /\ isTerminating pod = false /\ updateMin <= Z.of_nat i)
        keepsTotal ((List.length pods < n)%nat \/ updateMin < 0)
        (rollingUpdate fails set updateRevision pods updateMin n).
Proof.
  induction n as [| target IH]; simpl.
  - destruct (Z.leb_spec updateMin (-1)); [| apply obeys_ret; hdr].
    apply obeys_crash. right. lia.
  - destruct (Z.leb_spec updateMin (Z.of_nat target)) as [Hmin | _];
      [| apply obeys_ret; hdr].
    rewrite index_nat_nth.
    destruct (nth_error pods target) as [pod |] eqn:Hnth.
    + apply obeys_bind; try hdr.
      * destruct (negb (String.eqb (getPodRevision pod) (rev_name updateRevision))
                  && negb (isTerminating pod)) eqn:Hcond; [| apply obeys_ret; hdr].
        apply andb_prop in Hcond. destruct Hcond as [_ Hterm].
        apply negb_true_iff in Hterm. simpl.
        apply obeys_bind; try hdr.
        -- apply obeys_modify. apply keepsTotal_onCurrentReplicas.
        -- intros _. apply (obeys_call fails); try hdr.
           exists target, pod. repeat split; auto.
      * intros _. eapply obeys_mono; [| | | apply IH]; auto.
        intros [H | H]; [left; lia | now right].
    + apply obeys_crash. left. apply nth_error_None in Hnth. lia.
Qed.

(** Lines 384-440. *)
Lemma obeys_terminate (pods : list Pod) :
  obeys (terminateCall set pods) keepsTotal (partitionOf set < 0)
        (terminate fails set currentRevision updateRevision pods).
Proof.
  unfold terminate. apply obeys_bind; try hdr.
  - eapply obeys_mono; [| | | apply (obeys_scaleDown pods _ _ (set_replicas set))].
    + intros c [i [pod [Hc [Hnth [Hterm Hpos]]]]].
      exists i, pod. repeat split; auto.
    + auto.
    + lia.
    + unfold len. lia.
  - intros _.
    destruct (StrategyType_eqb (us_type (set_strategy set))
                               OnDeleteStatefulSetStrategyType) eqn:Hstrategy.
    + apply obeys_bind_yields with (Q := fun _ : unit => False).
      * exact keepsTotal_trans.
      * apply obeys_returnStatus. hdr.
      * intros status w. exact I.
      * intros _ [].
    + apply obeys_bind; try hdr; [apply obeys_ret; hdr |].
      intros _. apply obeys_bind; try hdr; [| intros _; apply obeys_returnStatus; hdr].
      eapply obeys_mono; [| | | apply obeys_rollingUpdate].
      * intros c [i [pod [Hc [Hnth [Hterm Hpos]]]]].
        exists i, pod. repeat split; auto. right. split; [| exact Hpos].
        destruct (us_type (set_strategy set)); [reflexivity | discriminate].
      * auto.
      * intros [H | H]; [lia | exact H].
Qed.

Lemma gather_eq (pods unhealthy : list Pod) (status : StatefulSetStatus) (w : World) :
  gather currentRevision updateRevision pods unhealthy status w
  = Next (unhealthy ++ filter (fun pod => negb (isHealthy pod)) pods)
         (fold_left (tally currentRevision updateRevision) pods status) w.
Proof.
  revert unhealthy status. induction pods as [| pod rest IH]; intros unhealthy status; simpl.
  - now rewrite app_nil_r.
  - unfold bind, modify, when, ret. unfold tally at 2.
    destruct (isRunningAndReady pod);
      destruct (isCreated pod && negb (isTerminating pod));
      rewrite ?countRevision_eq, IH; f_equal;
      destruct (negb (isHealthy pod)); now rewrite <- ?app_assoc.
Qed.

Lemma placeholders_fresh (pods : list Pod) (status : StatefulSetStatus) (pod : Pod) :
  In pod (placeholders set currentRevision updateRevision currentSet updateSet pods status) ->
  pod_phase pod = PhaseNone.
Proof.
  unfold placeholders. intros H. apply in_map_iff in H.
  destruct H as [i [<- _]]. reflexivity.
Qed.

Lemma terminateCall_driverCall (pods : list Pod) (c : Call) :
  terminateCall set pods c -> driverCall set pods c.
Proof.
  intros H. pose proof H as [i [pod [-> [Hnth _]]]]. simpl.
  split; [eapply nth_error_In; eauto | now right].
Qed.

Lemma repairCall_driverCall (pods : list Pod) (status : StatefulSetStatus) (c : Call) :
  repairCall set
    (filter (fun pod => negb (isHealthy pod)) pods
     ++ placeholders set currentRevision updateRevision currentSet updateSet pods status) c ->
  driverCall set pods c.
Proof.
  assert (Hobserved : forall pod,
             In pod (filter (fun pod => negb (isHealthy pod)) pods
                     ++ placeholders set currentRevision updateRevision
                                     currentSet updateSet pods status) ->
             pod_phase pod <> PhaseNone ->
             In pod pods /\ isHealthy pod = false).
  { intros pod Hin Hphase. apply in_app_or in Hin. destruct Hin as [Hin | Hin].
    - apply filter_In in Hin. destruct Hin as [Hin Hh].
      split; [exact Hin | now apply negb_true_iff in Hh].
    - apply placeholders_fresh in Hin. contradiction. }
  destruct c as [pod | pod | pod | reason pod | | | | |]; simpl; try tauto.
  - intros [Hc [Hf [Hin Hm]]].
    destruct (Hobserved pod Hin) as [Ho Hh].
    { unfold isCreated in Hc. destruct (pod_phase pod); congruence. }
    tauto.
  - intros [Hf Hin]. destruct (Hobserved pod Hin) as [Ho Hh].
    { unfold isFailed in Hf. destruct (pod_phase pod); congruence. }
    tauto.
  - intros [Hr [Hf Hin]]. destruct (Hobserved pod Hin) as [Ho Hh].
    { unfold isFailed in Hf. destruct (pod_phase pod); congruence. }
    tauto.
Qed.

(** Lines 276-440: after the counting, the driver keeps to [driverCall] and
    leaves the header of the status and the ready count alone. *)
Lemma reconcile_follows (pods : list Pod) (status : StatefulSetStatus) (w : World) :
  stepObeys (driverCall set pods) keepsHeader (partitionOf set < 0)
            (fold_left (tally currentRevision updateRevision) pods status) w
            (reconcile fails set currentRevision updateRevision currentSet updateSet
                       pods status w).
Proof.
  unfold reconcile.
  rewrite (bind_next _ _ _ _ _ _ _ (gather_eq pods [] status w)).
  set (counts := fold_left (tally currentRevision updateRevision) pods status).
  unfold bind at 1. simpl app.
  destruct (set_deleting set).
  - unfold bind, returnStatus. simpl. apply follows_refl. hdr.
  - assert (H : obeys (driverCall set pods) keepsHeader (partitionOf set < 0)
                  (repairAll fails set currentRevision updateRevision currentSet updateSet
                     (filter (fun pod => negb (isHealthy pod)) pods
                      ++ placeholders set currentRevision updateRevision
                                      currentSet updateSet pods counts) ;;
                   terminate fails set currentRevision updateRevision pods)).
    { apply obeys_bind; try hdr.
      - eapply obeys_mono; [| | | apply obeys_repairAll; apply incl_refl].
        + apply repairCall_driverCall.
        + auto.
        + tauto.
      - intros _. eapply obeys_mono; [| | | apply obeys_terminate].
        + apply terminateCall_driverCall.
        + apply keepsTotal_header.
        + auto. }
    specialize (H counts w). unfold bind at 1. unfold ret at 1. exact H.
Qed.

Lemma scaleDownTargets_none (pods : list Pod) (n : nat) (needToDelete : Z) :
  needToDelete <= 0 \/ n = O -> scaleDownTargets pods n needToDelete = [].
Proof.
  intros H. unfold scaleDownTargets. rewrite skipn_all2; [reflexivity |].
  rewrite length_firstn. lia.
Qed.

Lemma scaleDownTargets_step (pods : list Pod) (target : nat) (needToDelete : Z) (pod : Pod) :
  0 < needToDelete ->
  nth_error pods target = Some pod ->
  scaleDownTargets pods (S target) needToDelete
  = if isTerminating pod
    then scaleDownTargets pods target (needToDelete - 1)
    else pod :: scaleDownTargets pods target (needToDelete - 1).
Proof.
  intros Hneed Hnth. unfold scaleDownTargets.
  assert (Hlen : (target < List.length pods)%nat) by (apply nth_error_Some; congruence).
  rewrite <- index_nat_nth in Hnth. rewrite (index_nat_app _ _ _ Hnth).
  rewrite skipn_app, length_firstn.
  replace (S target - Z.to_nat needToDelete - Nat.min target (List.length pods))%nat
    with O by lia.
  replace (S target - Z.to_nat needToDelete)%nat
    with (target - Z.to_nat (needToDelete - 1))%nat by lia.
  simpl. rewrite rev_app_distr. simpl.
  now destruct (isTerminating pod).
Qed.


End PhaseDiscipline.

(** ** Properties of the driver *)

Section DriverProperties.

Variable fails : list Call -> Call -> bool.
Variable set : StatefulSet.
Variables currentRevision updateRevision : ControllerRevision.

Lemma fold_tally_count (g : StatefulSetStatus -> Z) (c : Pod -> bool) :
  (forall s pod, g (tally currentRevision updateRevision s pod)
                 = if c pod then inc32 (g s) else g s) ->
  forall pods s,
    g (fold_left (tally currentRevision updateRevision) pods s)
    = Nat.iter (List.length (filter c pods)) inc32 (g s).
Proof.
  intros Hstep pods. induction pods as [| pod rest IH]; intros s; simpl; [reflexivity |].
  rewrite IH, Hstep. destruct (c pod); [| reflexivity].
  simpl List.length. now rewrite Nat.iter_succ_r.
Qed.

Lemma fold_tally_keeps {X : Type} (g : StatefulSetStatus -> X) :
  (forall s pod, g (tally currentRevision updateRevision s pod) = g s) ->
  forall pods s, g (fold_left (tally currentRevision updateRevision) pods s) = g s.
Proof.
  intros Hstep pods. induction pods as [| pod rest IH]; intros s; simpl; [reflexivity |].
  now rewrite IH, Hstep.
Qed.

Ltac tally_cases :=
  intros s pod; unfold tally, counted, countsFor;
  destruct (isRunningAndReady pod), (isCreated pod && negb (isTerminating pod)),
           (String.eqb (getPodRevision pod) (rev_name currentRevision)),
           (String.eqb (getPodRevision pod) (rev_name updateRevision));
  reflexivity.

Lemma filter_all {A : Type} (l : list A) : filter (fun _ => true) l = l.
Proof. induction l as [| x l IH]; simpl; congruence. Qed.

(** X1. The counting loop of lines 279-301 makes no call.  It adds the number
    of pods to Replicas, the number of running and ready pods to
    ReadyReplicas, and to CurrentReplicas and UpdatedReplicas the number of
    pods that are created, not terminating and tagged with the current and
    with the update revision (int32 additions, one by one); the unhealthy
    pods are collected in the order of the list. *)
Theorem gather_counts (pods unhealthy : list Pod) (status : StatefulSetStatus) (w : World) :
  exists status',
    gather currentRevision updateRevision pods unhealthy status w
    = Next (unhealthy ++ filter (fun pod => negb (isHealthy pod)) pods) status' w
    /\ Replicas status' = Nat.iter (List.length pods) inc32 (Replicas status)
    /\ ReadyReplicas status'
       = Nat.iter (List.length (filter isRunningAndReady pods)) inc32 (ReadyReplicas status)
    /\ CurrentReplicas status'
       = Nat.iter (List.length (filter (countsFor (rev_name currentRevision)) pods))
                  inc32 (CurrentReplicas status)
    /\ UpdatedReplicas status'
       = Nat.iter (List.length (filter (countsFor (rev_name updateRevision)) pods))
                  inc32 (UpdatedReplicas status)
    /\ ObservedGeneration status' = ObservedGeneration status
    /\ CurrentRevision status' = CurrentRevision status
    /\ UpdateRevision status' = UpdateRevision status
    /\ CollisionCount status' = CollisionCount status.
Proof.
  exists (fold_left (tally currentRevision updateRevision) pods status).
  split; [apply gather_eq |].
  split.
  { rewrite (fold_tally_count Replicas (fun _ => true)) by tally_cases.
    now rewrite filter_all. }
  split; [apply fold_tally_count; tally_cases |].
  split; [apply fold_tally_count; tally_cases |].
  split; [apply fold_tally_count; tally_cases |].
  repeat split; apply fold_tally_keeps; tally_cases.
Qed.


Lemma driver_follows (collisionCount : Z) (pods : list Pod) (w : World) :
  match updateStatefulSet fails set currentRevision updateRevision collisionCount pods w with
  | Finished None err w' => w' = w /\ err <> None
  | Finished (Some status) err w' =>
      follows (driverCall set pods) keepsHeader
              (fold_left (tally currentRevision updateRevision) pods
                         (initialStatus set currentRevision updateRevision collisionCount))
              w status w'
  | Panicked => partitionOf set < 0
  end.
Proof.
  unfold updateStatefulSet.
  destruct (ApplyRevision set currentRevision) as [currentSet |];
    [| split; [reflexivity | discriminate]].
  destruct (ApplyRevision set updateRevision) as [updateSet |];
    [| split; [reflexivity | discriminate]].
  fold (initialStatus set currentRevision updateRevision collisionCount).
  pose proof (reconcile_follows fails set currentRevision updateRevision
                currentSet updateSet pods
                (initialStatus set currentRevision updateRevision collisionCount) w) as H.
  destruct (reconcile _ _ _ _ _ _ _ _ _) as [[] status' w' | err status' w' |]; exact H.
Qed.

(** X3. What [updateStatefulSet] never does, on every platform and for every
    list of pods.  It calls nothing but pod control and the event recorder,
    and leaves the revision store alone.  It deletes an observed pod only if
    the pod is failed, or is not terminating and stands at a position of the
    list from the replica count on or (rolling update) from the partition on.
    It creates only pods that are not created.  It updates only observed
    pods that are created, unhealthy, not failed and whose identity or
    storage does not match.  It panics only with a negative partition. *)
Theorem driver_keeps_to_its_calls (collisionCount : Z) (pods : list Pod) (w : World) :
  match updateStatefulSet fails set currentRevision updateRevision collisionCount pods w with
  | Finished _ _ w' =>
      w_store w' = w_store w
      /\ exists l, w_log w' = w_log w ++ l /\ Forall (driverCall set pods) l
  | Panicked => partitionOf set < 0
  end.
Proof.
  pose proof (driver_follows collisionCount pods w) as H.
  destruct (updateStatefulSet _ _ _ _ _ _ _) as [[status |] err w' |]; [| | exact H].
  - destruct H as [_ [Hstore Hlog]]. now split.
  - destruct H as [-> _]. split; [reflexivity |].
    exists []. split; [now rewrite app_nil_r | constructor].
Qed.

(** X4. Whatever [updateStatefulSet] does after the counting, also when it
    returns an error mid-pass, the status it hands back has the set's
    generation, the names of the two revisions and the collision count it
    was given, and its ReadyReplicas is the number of observed pods that are
    running and ready (added one by one from 0): no later step changes it. *)
Theorem driver_status_header (collisionCount : Z) (pods : list Pod) (w : World) :
  match updateStatefulSet fails set currentRevision updateRevision collisionCount pods w with
  | Finished (Some status) _ _ =>
      ObservedGeneration status = set_generation set
      /\ CurrentRevision status = rev_name currentRevision
      /\ UpdateRevision status = rev_name updateRevision
      /\ CollisionCount status = Some collisionCount
      /\ ReadyReplicas status
         = Nat.iter (List.length (filter isRunningAndReady pods)) inc32 0
  | _ => True
  end.
Proof.
  pose proof (driver_follows collisionCount pods w) as H.
  destruct (updateStatefulSet _ _ _ _ _ _ _) as [[status |] err w' |]; try exact I.
  destruct H as [[Hg [Hc [Hu [Hcc Hr]]]] _].
  rewrite Hg, Hc, Hu, Hcc, Hr.
  repeat split; try (rewrite fold_tally_keeps; [reflexivity | tally_cases]).
  rewrite (fold_tally_count ReadyReplicas isRunningAndReady) by tally_cases.
  reflexivity.
Qed.

(** X5. A set that is being deleted (lines 321-325): the driver makes no call
    at all, whatever the pods, and returns the counted status with a nil
    error. *)
Theorem deleting_set_is_only_counted
    (collisionCount : Z) (pods : list Pod) (w : World) (currentSet updateSet : StatefulSet) :
  set_deleting set = true ->
  ApplyRevision set currentRevision = Some currentSet ->
  ApplyRevision set updateRevision = Some updateSet ->
  updateStatefulSet fails set currentRevision updateRevision collisionCount pods w
  = Finished (Some (fold_left (tally currentRevision updateRevision) pods
                              (initialStatus set currentRevision updateRevision
                                             collisionCount)))
             None w.
Proof.
  intros Hdeleting Hcur Hupd. unfold updateStatefulSet. rewrite Hcur, Hupd.
  fold (initialStatus set currentRevision updateRevision collisionCount).
  unfold reconcile.
  rewrite (bind_next _ _ _ _ _ _ _ (gather_eq _ _ _ _ _ _)).
  unfold bind at 1. rewrite Hdeleting. reflexivity.
Qed.

End DriverProperties.

(** ** Properties of the revision manager *)

Lemma last_filter {A : Type} (f : A -> bool) (l : list A) (d : A) :
  l <> [] -> f (last l d) = true -> last (filter f l) d = last l d.
Proof.
  intros Hne. destruct (exists_last Hne) as [l' [x ->]].
  rewrite last_last. intros Hx. rewrite filter_app. simpl. rewrite Hx.
  apply last_last.
Qed.

Section RevisionProperties.

Variable revisionName : string -> option Template -> Z -> string.
Variable fails : list Call -> Call -> bool.

Lemma persistRevision_store (fuel : nat) (setName : string)
    (revision : ControllerRevision) (c : Z) (store : list ControllerRevision) :
  match persistRevision revisionName fuel setName revision c store with
  | (Ok (r, _), store') =>
      (store' = store /\ In r store)
      \/ (store' = store ++ [r] /\ rev_data r = rev_data revision
          /\ rev_revision r = rev_revision revision)
  | (_, store') => store' = store
  end.
Proof.
  revert c. induction fuel as [| fuel IH]; intros c; simpl; [reflexivity |].
  destruct (find _ store) as [existing |] eqn:Hfind.
  - destruct (EqualRevision existing _).
    + left. split; [reflexivity |]. apply find_some in Hfind. tauto.
    + apply IH.
  - right. repeat split.
Qed.

(** The shape of every outcome of [getStatefulSetRevisions]. *)
Lemma getStatefulSetRevisions_outcome (set : StatefulSet)
    (revisions : list ControllerRevision) (w : World) :
  match getStatefulSetRevisions revisionName fails set revisions w with
  | (Panic, _) => False
  | (Err _, w') =>
      w_store w' = w_store w
      /\ exists c, isRevisionWrite c /\ w_log w' = w_log w ++ [c]
  | (Ok (current, update, _, revisions'), w') =>
      revisions' = SortControllerRevisions revisions
      /\ current = match findCurrent revisions' (CurrentRevision (set_status set)) with
                   | Some r => r
                   | None => update
                   end
      /\ exists l, w_log w' = w_log w ++ l /\ (List.length l <= 1)%nat
                   /\ Forall isRevisionWrite l
  end.
Proof.
  unfold getStatefulSetRevisions, newRevision.
  set (sorted := SortControllerRevisions revisions).
  set (candidate := mkRevision _ _ _ _).
  destruct (Z.ltb_spec 0 (len (FindEqualRevisions sorted candidate))) as [Hpos | Hzero].
  - destruct (FindEqualRevisions_nonempty _ _ Hpos) as [Heq Hsorted].
    rewrite <- (len_sorted revisions). fold sorted.
    rewrite (index_last sorted candidate Hsorted).
    rewrite (index_last _ candidate Heq).
    destruct (EqualRevision _ _).
    + split; [reflexivity |]. split; [reflexivity |].
      exists []. rewrite app_nil_r. repeat split; auto.
    + unfold controllerHistory_UpdateControllerRevision, issue.
      destruct (fails _ _); simpl.
      * split; [reflexivity |]. eexists. split; [| reflexivity]. exact I.
      * split; [reflexivity |]. split; [reflexivity |].
        eexists [_]. repeat split; auto. constructor; [exact I | constructor].
  - unfold controllerHistory_CreateControllerRevision, issue.
    destruct (fails _ _).
    + simpl. split; [reflexivity |]. eexists. split; [| reflexivity]. exact I.
    + match goal with
      | |- context [persistRevision ?n ?f ?s ?r ?c ?st] =>
          pose proof (persistRevision_no_panic n f s r c st) as Hp;
          pose proof (persistRevision_store f s r c st) as Hs;
          destruct (persistRevision n f s r c st) as [[[u c'] | err |] store']
      end; simpl in *; try discriminate Hp.
      * split; [reflexivity |]. split; [reflexivity |].
        eexists [_]. repeat split; auto. constructor; [exact I | constructor].
      * split; [exact Hs |]. eexists. split; [| reflexivity]. exact I.
Qed.

Lemma SortControllerRevisions_In (l : list ControllerRevision) (x : ControllerRevision) :
  In x (SortControllerRevisions l) -> In x l.
Proof.
  induction l as [| y l IH]; unfold SortControllerRevisions in *; simpl; [tauto |].
  intros H. apply insertRevision_In in H. destruct H as [-> | H]; auto.
Qed.


(** X7. When the newest revision of the history already records the set's
    template (lines 207-209), [getStatefulSetRevisions] makes no call at all
    and returns that revision as the update revision; the platform is left
    as it was. *)
Theorem unchanged_template_makes_no_call (set : StatefulSet)
    (revisions : list ControllerRevision) (w : World) (d : ControllerRevision) :
  revisions <> [] ->
  rev_data (last (SortControllerRevisions revisions) d) = Some (set_template set) ->
  exists current,
    getStatefulSetRevisions revisionName fails set revisions w
    = (Ok (current, last (SortControllerRevisions revisions) d,
           match CollisionCount (set_status set) with Some c => c | None => 0 end,
           SortControllerRevisions revisions), w).
Proof.
  intros Hne Hdata.
  unfold getStatefulSetRevisions, newRevision.
  set (sorted := SortControllerRevisions revisions) in *.
  set (candidate := mkRevision _ _ _ _).
  assert (Hsorted : sorted <> []).
  { intros E. apply Hne. apply length_zero_iff_nil.
    rewrite <- (SortControllerRevisions_length revisions). fold sorted.
    now rewrite E. }
  assert (Hd : forall x, last sorted x = last sorted d).
  { intros x. destruct (exists_last Hsorted) as [l' [y ->]]. now rewrite !last_last. }
  assert (Heqv : EqualRevision (last sorted candidate) candidate = true).
  { apply EqualRevision_iff. rewrite Hd. exact Hdata. }
  assert (Hlast : last (FindEqualRevisions sorted candidate) candidate
                  = last sorted candidate).
  { unfold FindEqualRevisions. now apply last_filter. }
  assert (Heq : FindEqualRevisions sorted candidate <> []).
  { unfold FindEqualRevisions. intros E.
    assert (Hin : In (last sorted candidate)
                     (filter (fun r => EqualRevision r candidate) sorted)).
    { apply filter_In. split; [| exact Heqv].
      destruct (exists_last Hsorted) as [l' [y ->]]. rewrite last_last.
      apply in_or_app. right. now left. }
    rewrite E in Hin. contradiction. }
  assert (Hpos : (0 <? len (FindEqualRevisions sorted candidate)) = true).
  { apply Z.ltb_lt. unfold len.
    destruct (FindEqualRevisions sorted candidate); [congruence | simpl; lia]. }
  rewrite Hpos. rewrite <- (len_sorted revisions). fold sorted.
  rewrite (index_last sorted candidate Hsorted).
  rewrite (index_last _ candidate Heq). rewrite Hlast.
  replace (EqualRevision (last sorted candidate) (last sorted candidate)) with true
    by (symmetry; now apply EqualRevision_iff).
  rewrite Hd. eexists. reflexivity.
Qed.

(** X8. When no revision of the history records the set's template (lines
    219-224), the one call [getStatefulSetRevisions] makes is the create of
    the candidate, whose Revision is the next one.  If the create fails, its
    error is returned.  If it succeeds and the store holds no record of the
    candidate's name, the candidate is stored and returned as the update
    revision, with the collision count unchanged. *)
Theorem new_template_creates_one_revision (set : StatefulSet)
    (revisions : list ControllerRevision) (w : World) :
  (forall r, In r revisions -> rev_data r <> Some (set_template set)) ->
  let candidate := candidateOf revisionName set revisions in
  let created := CreateControllerRevision candidate in
  let r := getStatefulSetRevisions revisionName fails set revisions w in
  w_log (snd r) = w_log w ++ [created]
  /\ (fails (w_log w) created = true ->
      r = (Err (CallFailed created), logCall created w))
  /\ (fails (w_log w) created = false ->
      find (hasName (rev_name candidate)) (w_store w) = None ->
      exists current,
        r = (Ok (current, candidate,
                 match CollisionCount (set_status set) with Some c => c | None => 0 end,
                 SortControllerRevisions revisions),
             setStore (w_store w ++ [candidate]) (logCall created w))).
Proof.
  intros Hnone. cbn zeta.
  unfold getStatefulSetRevisions, newRevision.
  fold (candidateOf revisionName set revisions).
  set (sorted := SortControllerRevisions revisions).
  set (candidate := candidateOf revisionName set revisions).
  assert (Hempty : FindEqualRevisions sorted candidate = []).
  { unfold FindEqualRevisions.
    destruct (filter _ sorted) as [| x l] eqn:E; [reflexivity |].
    assert (Hx : In x (filter (fun r => EqualRevision r candidate) sorted))
      by (rewrite E; now left).
    apply filter_In in Hx. destruct Hx as [Hin Heqv].
    apply EqualRevision_iff in Heqv.
    apply SortControllerRevisions_In in Hin. now apply Hnone in Hin. }
  rewrite Hempty. simpl (0 <? len []).
  unfold controllerHistory_CreateControllerRevision, issue.
  destruct (fails (w_log w) (CreateControllerRevision candidate)) eqn:Hfails.
  - simpl. split; [reflexivity |]. split; [reflexivity | discriminate].
  - split.
    + match goal with
      | |- context [persistRevision ?n ?f ?s ?r ?c ?st] =>
          destruct (persistRevision n f s r c st) as [[[u c'] | err |] store']
      end; reflexivity.
    + split; [discriminate |]. intros _ Hfind.
      cbn [persistRevision]. cbn [logCall w_store].
      change (withName candidate (revisionName (set_name set) (rev_data candidate) _))
        with candidate.
      rewrite Hfind. eexists. reflexivity.
Qed.

End RevisionProperties.

(** ** More on history truncation *)

Section TruncationProperties.

Variable fails : list Call -> Call -> bool.

(** The deletion loop on every platform: the calls are the deletes of a
    prefix of the list (the failed call included), and a stored record whose
    name is not that of a listed revision stays in the store. *)
Lemma deleteRevisions_any (history : list ControllerRevision) (w : World) :
  exists l rest,
    history = l ++ rest
    /\ w_log (snd (deleteRevisions fails history w))
       = w_log w ++ map DeleteControllerRevision l
    /\ (forall r, In r (w_store w) ->
                  (forall d, In d history -> rev_name d <> rev_name r) ->
                  In r (w_store (snd (deleteRevisions fails history w)))).
Proof.
  revert w. induction history as [| d rest IH]; intros w; simpl.
  - exists [], []. simpl. rewrite app_nil_r. auto.
  - unfold controllerHistory_DeleteControllerRevision, issue.
    destruct (fails (w_log w) (DeleteControllerRevision d)); simpl.
    + exists [d], rest. auto.
    + match goal with
      | |- context [deleteRevisions fails rest ?w1] =>
          destruct (IH w1) as [l [rest' [Hsplit [Hlog Hstore]]]]
      end.
      exists (d :: l), rest'. split; [now rewrite Hsplit |]. split.
      * rewrite Hlog. simpl. now rewrite <- app_assoc.
      * intros r Hin Hnames. apply Hstore.
        -- simpl. apply filter_In. split; [exact Hin |].
           apply negb_true_iff. unfold hasName. apply String.eqb_neq.
           intros E. apply (Hnames d); auto.
        -- intros d' Hd'. apply Hnames. now right.
Qed.

(** X9. [truncateHistory] never deletes a live revision, whatever the limit,
    the platform and the outcome: every delete it issues is for a revision
    of the list whose name is not the current revision's, not the update
    revision's and not the tag of any observed pod; and every stored record
    with such a live name is still in the store afterwards. *)
Theorem truncateHistory_spares_the_live_revisions
    (set : StatefulSet) (pods : list Pod) (revisions : list ControllerRevision)
    (current update : ControllerRevision) (w : World) :
  let r := truncateHistory fails set pods revisions current update w in
  let live := fun name =>
    name = rev_name current \/ name = rev_name update
    \/ exists pod, In pod pods /\ getPodRevision pod = name in
  (exists l,
      w_log (snd r) = w_log w ++ map DeleteControllerRevision l
      /\ Forall (fun d => In d revisions /\ ~ live (rev_name d)) l)
  /\ (forall x, In x (w_store w) -> live (rev_name x) -> In x (w_store (snd r))).
Proof.
  cbn zeta.
  set (live := fun name =>
    name = rev_name current \/ name = rev_name update
    \/ exists pod, In pod pods /\ getPodRevision pod = name).
  assert (Hlive : forall name,
             isLive (liveNames pods current update) name = true <-> live name).
  { intros name. rewrite isLive_iff, liveNames_eq. unfold live. simpl.
    rewrite in_map_iff. split.
    - intros [H | [H | [pod [Hp Hin]]]]; [now left | now (right; left) |].
      right. right. eauto.
    - intros [H | [H | [pod [Hin Hp]]]]; [now left | now (right; left) |].
      right. right. eauto. }
  assert (Hhistory : forall d,
             In d (filter (fun r => negb (isLive (liveNames pods current update)
                                                 (rev_name r))) revisions) ->
             In d revisions /\ ~ live (rev_name d)).
  { intros d Hd. apply filter_In in Hd. destruct Hd as [Hin Hn].
    split; [exact Hin |]. rewrite <- Hlive. apply negb_true_iff in Hn. congruence. }
  assert (Hnone : (exists l, w_log w = w_log w ++ map DeleteControllerRevision l
                             /\ Forall (fun d => In d revisions /\ ~ live (rev_name d)) l)
                  /\ (forall x, In x (w_store w) -> live (rev_name x) -> In x (w_store w))).
  { split; [| auto]. exists []. simpl. rewrite app_nil_r. auto. }
  unfold truncateHistory.
  set (history := filter _ revisions) in *.
  destruct (len history <=? set_historyLimit set); [exact Hnone |].
  destruct (len revisions <? len history - set_historyLimit set); [exact Hnone |].
  set (k := Z.to_nat (len history - set_historyLimit set)).
  destruct (deleteRevisions_any (firstn k history) w) as [l [rest [Hsplit [Hlog Hstore]]]].
  assert (Hl : forall d, In d (firstn k history) -> In d history).
  { intros d Hd. rewrite <- (firstn_skipn k history). apply in_or_app. now left. }
  assert (Hgoal : (exists l0,
             w_log (snd (deleteRevisions fails (firstn k history) w))
             = w_log w ++ map DeleteControllerRevision l0
             /\ Forall (fun d => In d revisions /\ ~ live (rev_name d)) l0)
          /\ (forall x, In x (w_store w) -> live (rev_name x) ->
                        In x (w_store (snd (deleteRevisions fails (firstn k history) w))))).
  { split.
    - exists l. split; [exact Hlog |]. apply Forall_forall. intros d Hd.
      apply Hhistory, Hl. rewrite Hsplit. apply in_or_app. now left.
    - intros x Hx Hxlive. apply Hstore; [exact Hx |].
      intros d Hd E. apply Hl, Hhistory in Hd. destruct Hd as [_ Hd].
      apply Hd. now rewrite E. }
  destruct (deleteRevisions fails (firstn k history) w) as [[err |] w'];
    [exact Hgoal |].
  destruct (len history <? len history - set_historyLimit set); exact Hgoal.
Qed.

Lemma truncateHistory_panics_only_below_zero
    (set : StatefulSet) (pods : list Pod) (revisions : list ControllerRevision)
    (current update : ControllerRevision) (w : World) :
  0 <= set_historyLimit set ->
  isPanic (fst (truncateHistory fails set pods revisions current update w)) = false.
Proof.
  intros Hlimit. unfold truncateHistory.
  set (history := filter _ revisions).
  assert (Hlen : len history <= len revisions).
  { unfold len, history. apply inj_le. apply filter_length_le. }
  destruct (len history <=? set_historyLimit set); [reflexivity |].
  destruct (Z.ltb_spec (len revisions) (len history - set_historyLimit set)); [lia |].
  destruct (deleteRevisions fails _ w) as [[err |] w']; [reflexivity |].
  destruct (Z.ltb_spec (len history) (len history - set_historyLimit set)); [lia |].
  reflexivity.
Qed.

End TruncationProperties.

(** ** The phases of a pass *)

Section PassProperties.

Variable revisionName : string -> option Template -> Z -> string.
Variable fails : list Call -> Call -> bool.

Lemma ListRevisions_outcome (set : StatefulSet) (w : World) :
  match ListRevisions fails set w with
  | (Panic, _) => False
  | (_, w') =>
      exists l, w_log w' = w_log w ++ l /\ (List.length l <= 1)%nat
                /\ Forall (fun c => c = ListControllerRevisions) l
  end.
Proof.
  unfold ListRevisions, controllerHistory_ListControllerRevisions, issue.
  destruct (set_selector_ok set).
  - destruct (fails _ _); simpl; exists [ListControllerRevisions];
      repeat split; auto; constructor; auto.
  - exists []. rewrite app_nil_r. repeat split; auto.
Qed.

Lemma updateStatefulSetStatus_outcome (set : StatefulSet) (status : StatefulSetStatus)
    (w : World) :
  exists l,
    w_log (snd (updateStatefulSetStatus fails set status w)) = w_log w ++ l
    /\ (l = [] \/ l = [UpdateStatefulSetStatus (completeRollingUpdate set status)]).
Proof.
  unfold updateStatefulSetStatus, statusUpdater_UpdateStatefulSetStatus, issue.
  destruct (negb (inconsistentStatus set (completeRollingUpdate set status))).
  - exists []. rewrite app_nil_r. auto.
  - destruct (fails _ _); simpl; eexists; split; eauto.
Qed.

Lemma truncateHistory_log
    (set : StatefulSet) (pods : list Pod) (revisions : list ControllerRevision)
    (current update : ControllerRevision) (w : World) :
  exists l,
    w_log (snd (truncateHistory fails set pods revisions current update w))
    = w_log w ++ map DeleteControllerRevision l.
Proof.
  unfold truncateHistory.
  set (history := filter _ revisions).
  assert (Hnone : exists l, w_log w = w_log w ++ map DeleteControllerRevision l).
  { exists []. simpl. now rewrite app_nil_r. }
  destruct (len history <=? set_historyLimit set); [exact Hnone |].
  destruct (len revisions <? len history - set_historyLimit set); [exact Hnone |].
  match goal with
  | |- context [deleteRevisions fails ?h w] =>
      destruct (deleteRevisions_any fails h w) as [l [rest [_ [Hlog _]]]];
      destruct (deleteRevisions fails h w) as [[err |] w']
  end; [eauto |].
  destruct (len history <? len history - set_historyLimit set); eauto.
Qed.

Lemma reconcile_deleting (set : StatefulSet)
    (currentRevision updateRevision : ControllerRevision)
    (currentSet updateSet : StatefulSet) (pods : list Pod)
    (status : StatefulSetStatus) (w : World) :
  set_deleting set = true ->
  reconcile fails set currentRevision updateRevision currentSet updateSet pods status w
  = Return None (fold_left (tally currentRevision updateRevision) pods status) w.
Proof.
  intros Hdeleting. unfold reconcile.
  rewrite (bind_next _ _ _ _ _ _ _ (gather_eq _ _ _ _ _ _)).
  unfold bind at 1. rewrite Hdeleting. reflexivity.
Qed.

Lemma driver_deleting_world (set : StatefulSet)
    (currentRevision updateRevision : ControllerRevision) (collisionCount : Z)
    (pods : list Pod) (w : World) :
  set_deleting set = true ->
  match updateStatefulSet fails set currentRevision updateRevision collisionCount pods w with
  | Finished _ _ w' => w' = w
  | Panicked => False
  end.
Proof.
  intros Hdeleting. unfold updateStatefulSet.
  destruct (ApplyRevision set currentRevision) as [currentSet |]; [| reflexivity].
  destruct (ApplyRevision set updateRevision) as [updateSet |]; [| reflexivity].
  now rewrite reconcile_deleting.
Qed.

Ltac logs :=
  simpl;
  repeat match goal with
         | H : w_log _ = _ |- _ => rewrite H; clear H
         end;
  rewrite <- ?app_assoc, ?app_nil_r; try reflexivity.

(** The calls of a pass, in their order: the revision store is read and
    written, then pods are dealt with, then the status is written, then
    revisions are deleted. *)
Lemma pass_phases (set : StatefulSet) (pods : list Pod) (w : World) :
  let r := UpdateStatefulSet revisionName fails set pods w in
  exists lrev lpods lstatus ltrunc,
    w_log (snd r) = w_log w ++ lrev ++ lpods ++ lstatus ++ ltrunc
    /\ Forall (fun c => c = ListControllerRevisions \/ isRevisionWrite c) lrev
    /\ Forall (driverCall set pods) lpods
    /\ (lstatus = [] \/ exists s, lstatus = [UpdateStatefulSetStatus s])
    /\ Forall (fun c => exists d, c = DeleteControllerRevision d) ltrunc
    /\ (set_deleting set = true -> lpods = [])
    /\ (isPanic (fst r) = true -> partitionOf set < 0 \/ set_historyLimit set < 0).
Proof.
  cbn zeta. unfold UpdateStatefulSet.
  pose proof (ListRevisions_outcome set w) as H1.
  destruct (ListRevisions fails set w) as [[listed | e1 |] w1]; [| | contradiction];
    destruct H1 as [l1 [Hl1 [_ Hf1]]];
    assert (Hrev1 : Forall (fun c => c = ListControllerRevisions \/ isRevisionWrite c) l1)
      by (eapply Forall_impl; [| exact Hf1]; intros c Hc; now left).
  2: { exists l1, [], [], []. repeat split; auto; try discriminate. logs. }
  pose proof (getStatefulSetRevisions_outcome revisionName fails set
                (SortControllerRevisions listed) w1) as H2.
  destruct (getStatefulSetRevisions revisionName fails set _ w1)
    as [[[[[current update] cc] revisions] | e2 |] w2]; [| | contradiction].
  2: { destruct H2 as [_ [c [Hc Hl2]]].
       exists (l1 ++ [c]), [], [], []. repeat split; auto; try discriminate; [logs |].
       apply Forall_app. split; [exact Hrev1 |]. constructor; [now right | constructor]. }
  destruct H2 as [_ [_ [l2 [Hl2 [_ Hf2]]]]].
  assert (Hrev : Forall (fun c => c = ListControllerRevisions \/ isRevisionWrite c)
                        (l1 ++ l2)).
  { apply Forall_app. split; [exact Hrev1 |].
    eapply Forall_impl; [| exact Hf2]. intros c Hc. now right. }
  pose proof (driver_follows fails set current update cc pods w2) as H3.
  pose proof (driver_deleting_world set current update cc pods w2) as Hdel.
  destruct (updateStatefulSet fails set current update cc pods w2)
    as [[status |] err w3 |].
  - destruct H3 as [_ [_ [l3 [Hl3 Hf3]]]].
    assert (Hpods : set_deleting set = true -> l3 = []).
    { intros Hd. specialize (Hdel Hd). subst w3.
      apply (app_inv_head (w_log w2)). now rewrite app_nil_r. }
    destruct err as [e3 |].
    { exists (l1 ++ l2), l3, [], []. repeat split; auto; try discriminate. logs. }
    destruct (updateStatefulSetStatus_outcome set status w3) as [l4 [Hl4 Hs4]].
    assert (Hstatus : l4 = [] \/ exists s, l4 = [UpdateStatefulSetStatus s])
      by (destruct Hs4; eauto).
    destruct (updateStatefulSetStatus fails set status w3) as [[e4 |] w4]; simpl in Hl4.
    { exists (l1 ++ l2), l3, l4, []. repeat split; auto; try discriminate. logs. }
    destruct (truncateHistory_log set pods revisions current update w4) as [l5 Hl5].
    pose proof (truncateHistory_panics_only_below_zero fails set pods revisions
                  current update w4) as Hpanic.
    exists (l1 ++ l2), l3, l4, (map DeleteControllerRevision l5).
    repeat split; auto.
    + logs.
    + apply Forall_forall. intros c Hc. apply in_map_iff in Hc.
      destruct Hc as [d [<- _]]. eauto.
    + intros Hp. destruct (Z.ltb_spec (set_historyLimit set) 0); [now right |].
      rewrite Hpanic in Hp by assumption. discriminate.
  - destruct H3 as [-> Herr]. destruct err as [e3 |]; [| congruence].
    exists (l1 ++ l2), [], [], []. repeat split; auto; try discriminate. logs.
  - exists (l1 ++ l2), [], [], []. repeat split; auto; logs.
Qed.

Lemma podCalls_app (l1 l2 : list Call) : podCalls (l1 ++ l2) = podCalls l1 ++ podCalls l2.
Proof. unfold podCalls. apply flat_map_app. Qed.

Lemma deletedRevisions_app (l1 l2 : list Call) :
  deletedRevisions (l1 ++ l2) = deletedRevisions l1 ++ deletedRevisions l2.
Proof. unfold deletedRevisions. apply flat_map_app. Qed.

Lemma flat_map_nil {A B : Type} (f : A -> list B) (l : list A) :
  Forall (fun x => f x = []) l -> flat_map f l = [].
Proof.
  induction 1 as [| x l Hx Hl IH]; simpl; [reflexivity |]. now rewrite Hx, IH.
Qed.

Lemma revision_calls_are_quiet (l : list Call) :
  Forall (fun c => c = ListControllerRevisions \/ isRevisionWrite c) l ->
  podCalls l = [] /\ statusWrites l = [] /\ deletedRevisions l = [].
Proof.
  intros H. repeat split; apply flat_map_nil; eapply Forall_impl; try exact H;
    intros c [-> | Hc]; try reflexivity; destruct c; simpl in *; tauto.
Qed.

(** X10. An error of the revision store aborts the pass before any pod is
    touched (lines 75-85): when listing the revisions fails, or when the
    revision manager fails (a failed create or update of a revision),
    [UpdateStatefulSet] returns that error, and the pass has made no pod
    call, written no status and deleted no revision. *)
Theorem revision_errors_abort_before_pods (set : StatefulSet) (pods : list Pod) (w : World) :
  (forall err w1,
      ListRevisions fails set w = (Err err, w1) ->
      UpdateStatefulSet revisionName fails set pods w = (Err err, w1)
      /\ podCalls (w_log w1) = podCalls (w_log w)
      /\ statusWrites (w_log w1) = statusWrites (w_log w)
      /\ deletedRevisions (w_log w1) = deletedRevisions (w_log w))
  /\ (forall listed w1 err w2,
      ListRevisions fails set w = (Ok listed, w1) ->
      getStatefulSetRevisions revisionName fails set (SortControllerRevisions listed) w1
      = (Err err, w2) ->
      UpdateStatefulSet revisionName fails set pods w = (Err err, w2)
      /\ podCalls (w_log w2) = podCalls (w_log w)
      /\ statusWrites (w_log w2) = statusWrites (w_log w)
      /\ deletedRevisions (w_log w2) = deletedRevisions (w_log w)).
Proof.
  split.
  - intros err w1 Hlist.
    split; [unfold UpdateStatefulSet; now rewrite Hlist |].
    pose proof (ListRevisions_outcome set w) as H. rewrite Hlist in H.
    destruct H as [l [Hl [_ Hf]]].
    destruct (revision_calls_are_quiet l) as [Hp [Hs Hd]].
    { eapply Forall_impl; [| exact Hf]. intros c Hc. now left. }
    rewrite Hl, podCalls_app, statusWrites_app, deletedRevisions_app, Hp, Hs, Hd.
    now rewrite !app_nil_r.
  - intros listed w1 err w2 Hlist Hrevs.
    split; [unfold UpdateStatefulSet; now rewrite Hlist, Hrevs |].
    pose proof (ListRevisions_outcome set w) as H1. rewrite Hlist in H1.
    destruct H1 as [l1 [Hl1 [_ Hf1]]].
    pose proof (getStatefulSetRevisions_outcome revisionName fails set
                  (SortControllerRevisions listed) w1) as H2.
    rewrite Hrevs in H2. destruct H2 as [_ [c [Hc Hl2]]].
    destruct (revision_calls_are_quiet (l1 ++ [c])) as [Hp [Hs Hd]].
    { apply Forall_app. split.
      - eapply Forall_impl; [| exact Hf1]. intros c' Hc'. now left.
      - constructor; [now right | constructor]. }
    rewrite Hl2, Hl1, <- app_assoc.
    rewrite podCalls_app, statusWrites_app, deletedRevisions_app, Hp, Hs, Hd.
    now rewrite !app_nil_r.
Qed.

(** X11. With a non-negative partition and a non-negative history limit,
    [UpdateStatefulSet] does not panic: no index is out of range and no nil
    status or revision is dereferenced, for every set, every list of pods
    and every platform. *)
Theorem UpdateStatefulSet_never_panics (set : StatefulSet) (pods : list Pod) (w : World) :
  0 <= partitionOf set ->
  0 <= set_historyLimit set ->
  isPanic (fst (UpdateStatefulSet revisionName fails set pods w)) = false.
Proof.
  intros Hpartition Hlimit.
  destruct (pass_phases set pods w) as [l1 [l2 [l3 [l4 [_ [_ [_ [_ [_ [_ Hpanic]]]]]]]]]].
  destruct (isPanic _); [| reflexivity].
  destruct (Hpanic eq_refl); lia.
Qed.

(** X12. The calls of one pass of [UpdateStatefulSet] come in this order: first
    the revision store is read and written (the list call, a create or an
    update); then pods are called, each call as the driver allows; then the
    status is written, at most once; then revisions are deleted.  No pod is
    touched after the status is written, and no revision is deleted before. *)
Theorem pass_calls_in_phases (set : StatefulSet) (pods : list Pod) (w : World) :
  exists lrev lpods lstatus ltrunc,
    w_log (snd (UpdateStatefulSet revisionName fails set pods w))
    = w_log w ++ lrev ++ lpods ++ lstatus ++ ltrunc
    /\ Forall (fun c => c = ListControllerRevisions \/ isRevisionWrite c) lrev
    /\ Forall (driverCall set pods) lpods
    /\ (lstatus = [] \/ exists s, lstatus = [UpdateStatefulSetStatus s])
    /\ Forall (fun c => exists d, c = DeleteControllerRevision d) ltrunc.
Proof.
  destruct (pass_phases set pods w) as [l1 [l2 [l3 [l4 [H1 [H2 [H3 [H4 [H5 _]]]]]]]]].
  exists l1, l2, l3, l4. auto.
Qed.

(** X13. A pass over a set that is being deleted makes no pod call: nothing is
    created, updated or deleted and no event is emitted, whatever the pods
    and the platform. *)
Theorem deleting_set_touches_no_pod (set : StatefulSet) (pods : list Pod) (w : World) :
  set_deleting set = true ->
  podCalls (w_log (snd (UpdateStatefulSet revisionName fails set pods w)))
  = podCalls (w_log w).
Proof.
  intros Hdeleting.
  destruct (pass_phases set pods w)
    as [l1 [l2 [l3 [l4 [Hlog [H1 [_ [H3 [H4 [Hpods _]]]]]]]]]].
  cbn zeta in Hlog. rewrite Hlog, (Hpods Hdeleting).
  rewrite !podCalls_app.
  destruct (revision_calls_are_quiet l1 H1) as [-> _].
  assert (E3 : podCalls l3 = []) by (destruct H3 as [-> | [s ->]]; reflexivity).
  assert (E4 : podCalls l4 = []).
  { apply flat_map_nil. eapply Forall_impl; [| exact H4]. intros c [d ->]. reflexivity. }
  rewrite E3, E4. simpl. now rewrite app_nil_r.
Qed.

End PassProperties.

(** ** A pass with nothing to do *)

Section SteadyState.

Variable fails : list Call -> Call -> bool.
Variable set : StatefulSet.
Variables currentRevision updateRevision : ControllerRevision.

Lemma rollingUpdate_updated (pods : list Pod) (updateMin : Z) (n : nat)
    (status : StatefulSetStatus) (w : World) :
  (forall pod, In pod pods -> getPodRevision pod = rev_name updateRevision) ->
  (n <= List.length pods)%nat ->
  0 <= updateMin ->
  rollingUpdate fails set updateRevision pods updateMin n status w = Next tt status w.
Proof.
  intros Htags Hn Hmin. induction n as [| target IH]; simpl.
  - destruct (Z.leb_spec updateMin (-1)); [lia | reflexivity].
  - destruct (updateMin <=? Z.of_nat target); [| reflexivity].
    rewrite index_nat_nth.
    destruct (nth_error pods target) as [pod |] eqn:Hnth;
      [| apply nth_error_None in Hnth; lia].
    rewrite (Htags pod (nth_error_In _ _ Hnth)), String.eqb_refl. simpl.
    unfold bind, ret. apply IH. lia.
Qed.

Lemma filter_none {A : Type} (f : A -> bool) (l : list A) :
  (forall x, In x l -> f x = false) -> filter f l = [].
Proof.
  induction l as [| x l IH]; simpl; intros H; [reflexivity |].
  rewrite (H x) by now left. apply IH. intros y Hy. apply H. now right.
Qed.

(** X14. A pass with nothing to do.  When there are as many observed pods as
    replicas wanted, every pod is healthy and tagged with the update
    revision, the set is not being deleted and the partition is not negative,
    the driver makes no call and returns the counted status with a nil
    error. *)
Theorem settled_set_is_left_alone
    (collisionCount : Z) (pods : list Pod) (w : World) (currentSet updateSet : StatefulSet) :
  ApplyRevision set currentRevision = Some currentSet ->
  ApplyRevision set updateRevision = Some updateSet ->
  len pods = set_replicas set ->
  0 <= partitionOf set ->
  (forall pod, In pod pods ->
               isHealthy pod = true /\ getPodRevision pod = rev_name updateRevision) ->
  updateStatefulSet fails set currentRevision updateRevision collisionCount pods w
  = Finished (Some (fold_left (tally currentRevision updateRevision) pods
                              (initialStatus set currentRevision updateRevision
                                             collisionCount)))
             None w.
Proof.
  intros Hcur Hupd Hcount Hpartition Hpods.
  unfold updateStatefulSet. rewrite Hcur, Hupd.
  fold (initialStatus set currentRevision updateRevision collisionCount).
  unfold reconcile.
  rewrite (bind_next _ _ _ _ _ _ _ (gather_eq _ _ _ _ _ _)).
  rewrite filter_none by (intros pod Hin; apply negb_false_iff; now apply Hpods).
  unfold bind at 1. unfold placeholders, loopRange.
  rewrite Hcount, Z.sub_diag. simpl.
  destruct (set_deleting set); [reflexivity |].
  unfold bind at 1. unfold ret at 1. unfold bind at 1. unfold ret at 1.
  unfold terminate. rewrite <- Hcount, Z.sub_diag.
  assert (Hscale : forall status,
             scaleDown fails set currentRevision updateRevision pods
                       (List.length pods) 0 status w = Next tt status w).
  { intros status. destruct (List.length pods); reflexivity. }
  rewrite (bind_next _ _ _ _ _ _ _ (Hscale _)).
  destruct (StrategyType_eqb _ _); [reflexivity |].
  unfold bind at 1. unfold ret at 1.
  rewrite (bind_next _ _ _ _ _ _ _
             (rollingUpdate_updated pods (partitionOf set) (List.length pods) _ w
                (fun pod Hin => proj2 (Hpods pod Hin)) (Nat.le_refl _) Hpartition)).
  reflexivity.
Qed.

End SteadyState.

(** ** Adoption of orphan revisions *)

Section AdoptionProperties.

Variable Store : Type.
Variable adopt : StatefulSet -> ControllerRevision -> Store -> result ControllerRevision * Store.

(** X15. [AdoptOrphanRevisions] (lines 125-136) adopts the revisions in order
    and stops at the first failure.  The slice keeps its length; its first
    [k] entries are what the store returned for the entries they replace,
    and the entries from [k] on are untouched.  With a nil error [k] is the
    length of the slice; otherwise the error is the one the store returned
    for entry [k]. *)
Theorem AdoptOrphanRevisions_adopts_a_prefix (set : StatefulSet)
    (revisions : list ControllerRevision) (store : Store) :
  match AdoptOrphanRevisions Store adopt set revisions store with
  | (r, revisions', _) =>
      List.length revisions' = List.length revisions
      /\ exists k,
          skipn k revisions' = skipn k revisions
          /\ Forall2 (fun original adopted =>
                        exists s s', adopt set original s = (Ok adopted, s'))
                     (firstn k revisions) (firstn k revisions')
          /\ match r with
             | Ok _ => k = List.length revisions
             | Err err =>
                 exists original s s',
                   nth_error revisions k = Some original
                   /\ adopt set original s = (Err err, s')
             | Panic =>
                 exists original s s',
                   nth_error revisions k = Some original
                   /\ adopt set original s = (Panic, s')
             end
  end.
Proof.
  revert store. induction revisions as [| revision rest IH]; intros store; simpl.
  - split; [reflexivity |]. exists O. simpl. repeat split. constructor.
  - destruct (adopt set revision store) as [[adopted | err |] store'] eqn:Hadopt.
    + specialize (IH store').
      destruct (AdoptOrphanRevisions Store adopt set rest store') as [[r rest'] store''].
      destruct IH as [Hlen [k [Hskip [Hfirst Hr]]]].
      split; [simpl; now rewrite Hlen |].
      exists (S k). simpl. split; [exact Hskip |]. split.
      * constructor; [eauto | exact Hfirst].
      * destruct r as [[] | e |]; [now rewrite Hr | exact Hr | exact Hr].
    + split; [reflexivity |]. exists O. simpl. repeat split; [constructor |]. eauto.
    + split; [reflexivity |]. exists O. simpl. repeat split; [constructor |]. eauto.
Qed.

End AdoptionProperties.

(** Adoption on a store that adopts twice and then fails: the first two
    entries are replaced, the third is left as it was, and the error is
    returned. *)
Example adoption_stops_at_the_first_failure :
  AdoptOrphanRevisions nat adoptTwice S3_set [R1; R2; R3] O
  = (Err (UndecodableRevision R3),
     [withName R1 "adopted-web-A-0"; withName R2 "adopted-web-B-0"; R3], 3%nat).
Proof. reflexivity. Qed.

(** ** The further theorems at the scenarios *)

(** A set being deleted, with three pods at R1 and the update revision R2. *)
Lemma deleting_set_counted :
  updateStatefulSet noFailure deleting_set R1 R2 0 threeAtR1 (mkWorld [R1; R2] [])
  = Finished (Some (mkStatus 2 3 3 3 0 "web-A-0" "web-B-0" (Some 0))) None
             (mkWorld [R1; R2] []).
Proof.
  eapply (deleting_set_is_only_counted noFailure deleting_set R1 R2 0 threeAtR1
            (mkWorld [R1; R2] []));
    [> reflexivity | reflexivity | reflexivity ].
Defined.

(** The history [R1] with the template still A. *)
Lemma unchanged_template_S2 :
  exists current,
    getStatefulSetRevisions demoName noFailure S2_set [R1] (mkWorld [R1] [])
    = (Ok (current, R1, 0, [R1]), mkWorld [R1] []).
Proof.
  apply (unchanged_template_makes_no_call demoName noFailure S2_set [R1]
           (mkWorld [R1] []) R1); [discriminate | reflexivity].
Defined.

(** The history [R1] with the template changed to B. *)
Lemma new_template_S3 :
  let candidate := mkRevision "web-B-0" 2 0 (Some "B") in
  exists current,
    getStatefulSetRevisions demoName noFailure S3_set [R1] (mkWorld [R1] [])
    = (Ok (current, candidate, 0, [R1]),
       mkWorld [R1; candidate] [CreateControllerRevision candidate]).
Proof.
  destruct (new_template_creates_one_revision demoName noFailure S3_set [R1]
              (mkWorld [R1] [])) as [_ [_ H]].
  - intros r [<- | []]. discriminate.
  - apply H; reflexivity.
Defined.

(** Scenario S3 on a platform where the create of R2 fails. *)
Lemma failed_create_aborts_S3 :
  exists err w2,
    UpdateStatefulSet demoName failCreateRevision S3_set threeAtR1 (mkWorld [R1] [])
    = (Err err, w2)
    /\ podCalls (w_log w2) = []
    /\ statusWrites (w_log w2) = []
    /\ deletedRevisions (w_log w2) = [].
Proof.
  destruct (revision_errors_abort_before_pods demoName failCreateRevision S3_set
              threeAtR1 (mkWorld [R1] [])) as [_ H].
  eexists. eexists. eapply H; [> vm_compute; reflexivity | vm_compute; reflexivity ].
Defined.

(** Scenario S3 does not panic. *)
Lemma S3_does_not_panic :
  isPanic (fst (UpdateStatefulSet demoName noFailure S3_set threeAtR1 (mkWorld [R1] [])))
  = false.
Proof.
  apply UpdateStatefulSet_never_panics; vm_compute; congruence.
Defined.

(** A pass over the set being deleted. *)
Lemma deleting_pass_touches_no_pod :
  podCalls (w_log (snd (UpdateStatefulSet demoName noFailure deleting_set threeAtR1
                                          (mkWorld [R1] []))))
  = [].
Proof.
  apply (deleting_set_touches_no_pod demoName noFailure deleting_set threeAtR1
           (mkWorld [R1] [])). reflexivity.
Defined.

(** Three healthy replicas at R1, three wanted, template A. *)
Lemma settled_three_replicas :
  updateStatefulSet noFailure settled_set R1 R1 0 threeAtR1 (mkWorld [R1] [])
  = Finished (Some (mkStatus 2 3 3 3 3 "web-A-0" "web-A-0" (Some 0))) None
             (mkWorld [R1] []).
Proof.
  eapply (settled_set_is_left_alone noFailure settled_set R1 R1 0 threeAtR1
            (mkWorld [R1] []));
    [> reflexivity | reflexivity | reflexivity | vm_compute; congruence | ].
  intros pod [<- | [<- | [<- | []]]]; split; reflexivity.
Defined.

(** ** Creation of the missing pods *)

Section Creation.

Variable fails : list Call -> Call -> bool.
Variable set : StatefulSet.
Variables currentRevision updateRevision : ControllerRevision.
Variables currentSet updateSet : StatefulSet.



End Creation.


(** The same, computed: both pods are created and the total goes from 0 to 2. *)
Example two_missing_pods_created_run :
  let missing := newVersionedStatefulSetPod settled_set settled_set "web-A-0" "web-A-0" 2 in
  repairAll noFailure settled_set R1 R1 settled_set settled_set [missing; missing]
            (initialStatus settled_set R1 R1 0) (mkWorld [R1] [])
  = Next tt (mkStatus 2 2 0 2 2 "web-A-0" "web-A-0" (Some 0))
         (mkWorld [R1] [CreateStatefulPod missing; CreateStatefulPod missing]).
Proof. reflexivity. Qed.

(** ** The driver as a script *)

Section Script.

Variable fails : list Call -> Call -> bool.
Variable set : StatefulSet.
Variables currentRevision updateRevision : ControllerRevision.
Variables currentSet updateSet : StatefulSet.

Lemma perform_app (s1 s2 : list Action) (status : StatefulSetStatus) (w : World) :
  perform fails (s1 ++ s2) status w
  = match perform fails s1 status w with
    | Next _ status' w' => perform fails s2 status' w'
    | Return err status' w' => Return err status' w'
    | Crash => Crash
    end.
Proof.
  revert status w. induction s1 as [| a rest IH]; intros status w; simpl.
  - reflexivity.
  - destruct (act_fallible a && fails (w_log w) (act_call a)); [reflexivity | apply IH].
Qed.

(** The body of the repair loop carries out the actions on its pod. *)
Lemma repair_perform (pod : Pod) (status : StatefulSetStatus) (w : World) :
  repair fails set currentRevision updateRevision currentSet updateSet pod status w
  = perform fails
      (repairScript set currentRevision updateRevision currentSet updateSet pod) status w.
Proof.
  unfold repair, repairScript.
  destruct (isFailed pod).
  - unfold bind, effect, orReturn, modify, ret, podControl_DeleteStatefulPod,
      podControl_CreateStatefulPod, issue, recorder_Eventf.
    cbn [perform recordEvent deleteFailed createPod act_fallible act_call act_before
         act_after act_step andb].
    destruct (fails (w_log (logCall (Eventf "RecreatingFailedPod" pod) w))
                    (DeleteStatefulPod pod)); [reflexivity |].
    rewrite countRevision_eq.
    match goal with
    | |- context [negb (isCreated ?p)] =>
        replace (negb (isCreated p)) with true by reflexivity
    end.
    cbv iota.
    destruct (fails _ (CreateStatefulPod _)); [reflexivity |].
    now rewrite countRevision_eq.
  - unfold bind at 1. unfold ret at 1.
    destruct (isCreated pod); cbn [negb].
    + destruct (identityMatches set pod && storageMatches set pod); [reflexivity |].
      unfold orReturn, podControl_UpdateStatefulPod, issue.
      cbn [perform updatePod act_fallible act_call act_before act_after act_step andb].
      now destruct (fails (w_log w) (UpdateStatefulPod (DeepCopy pod))).
    + unfold bind, orReturn, podControl_CreateStatefulPod, issue, modify.
      cbn [perform createPod act_fallible act_call act_before act_after act_step andb].
      destruct (fails (w_log w) (CreateStatefulPod pod)); [reflexivity |].
      now rewrite countRevision_eq.
Qed.

Lemma repairAll_perform (unhealthy : list Pod) (status : StatefulSetStatus) (w : World) :
  repairAll fails set currentRevision updateRevision currentSet updateSet unhealthy status w
  = perform fails
      (flat_map (repairScript set currentRevision updateRevision currentSet updateSet)
                unhealthy) status w.
Proof.
  revert status w. induction unhealthy as [| pod rest IH]; intros status w.
  - reflexivity.
  - cbn [repairAll flat_map]. unfold bind. rewrite repair_perform, perform_app.
    destruct (perform fails (repairScript _ _ _ _ _ pod) status w) as [[] s1 w1 | |];
      [apply IH | reflexivity | reflexivity].
Qed.

(** The scale-down loop, started within the list, deletes its targets in
    turn. *)
Lemma scaleDown_perform (pods : list Pod) (n : nat) (needToDelete : Z)
    (status : StatefulSetStatus) (w : World) :
  (n <= List.length pods)%nat ->
  scaleDown fails set currentRevision updateRevision pods n needToDelete status w
  = perform fails
      (map (deleteSurplus currentRevision updateRevision)
           (scaleDownTargets pods n needToDelete)) status w.
Proof.
  revert needToDelete status w.
  induction n as [| target IH]; intros needToDelete status w Hn.
  - cbn [scaleDown]. now rewrite scaleDownTargets_none by auto.
  - cbn [scaleDown]. destruct (Z.ltb_spec 0 needToDelete) as [Hneed | Hneed].
    + rewrite index_nat_nth.
      destruct (nth_error pods target) as [pod |] eqn:Hnth;
        [| apply nth_error_None in Hnth; lia].
      rewrite (scaleDownTargets_step _ _ _ _ Hneed Hnth).
      destruct (isTerminating pod); [apply IH; lia |].
      unfold bind, orReturn, podControl_DeleteStatefulPod, issue.
      cbn [map perform deleteSurplus act_fallible act_call act_before act_after
           act_step andb].
      destruct (fails (w_log w) (DeleteStatefulPod pod)); [reflexivity |].
      rewrite countRevision_eq. apply IH. lia.
    + now rewrite scaleDownTargets_none by (left; lia).
Qed.

(** The rolling-update loop, started within the list with a partition that
    is not negative, decrements and deletes its targets in turn. *)
Lemma rollingUpdate_perform (pods : list Pod) (updateMin : Z) (n : nat)
    (status : StatefulSetStatus) (w : World) :
  (n <= List.length pods)%nat ->
  0 <= updateMin ->
  rollingUpdate fails set updateRevision pods updateMin n status w
  = perform fails (map deleteForUpdate (updateTargets updateRevision pods updateMin n))
            status w.
Proof.
  intros Hn Hmin. revert status w.
  induction n as [| target IH]; intros status w.
  - cbn [rollingUpdate]. destruct (Z.leb_spec updateMin (-1)); [lia |].
    now rewrite updateTargets_none by (simpl; lia).
  - assert (Htarget : (target <= List.length pods)%nat) by lia.
    specialize (IH Htarget).
    cbn [rollingUpdate]. destruct (Z.leb_spec updateMin (Z.of_nat target)) as [Hle | Hgt].
    + destruct (index_in_range pods (Z.of_nat target)) as [pod Hidx];
        [unfold len; lia |].
      rewrite Hidx, (updateTargets_step _ _ _ _ _ Hle Hidx).
      unfold bind, when. fold (needsUpdate updateRevision pod).
      destruct (needsUpdate updateRevision pod); [| apply IH].
      unfold modify, orReturn, podControl_DeleteStatefulPod, issue.
      cbn [map perform deleteForUpdate act_fallible act_call act_before act_after
           act_step andb].
      destruct (fails (w_log w) (DeleteStatefulPod pod)); [reflexivity | apply IH].
    + now rewrite updateTargets_none by lia.
Qed.

(** Lines 276-440 carry out the script of the pass. *)
Lemma reconcile_perform (pods : list Pod) (status : StatefulSetStatus) (w : World) :
  0 <= partitionOf set ->
  let counts := fold_left (tally currentRevision updateRevision) pods status in
  reconcile fails set currentRevision updateRevision currentSet updateSet pods status w
  = finish (perform fails
              (driverScript set currentRevision updateRevision currentSet updateSet
                            pods counts) counts w).
Proof.
  intros Hpartition counts. unfold reconcile, driverScript.
  rewrite (bind_next _ _ _ _ _ _ _ (gather_eq _ _ pods [] status w)).
  fold counts. unfold bind at 1. cbn [app].
  destruct (set_deleting set); [reflexivity |].
  unfold bind at 1. unfold ret at 1. unfold bind at 1.
  rewrite repairAll_perform, perform_app.
  destruct (perform fails (flat_map _ _) counts w) as [[] s1 w1 | |];
    [| reflexivity | reflexivity].
  unfold terminate. unfold bind at 1.
  rewrite scaleDown_perform by lia. rewrite perform_app.
  destruct (perform fails (map (deleteSurplus _ _) _) s1 w1) as [[] s2 w2 | |];
    [| reflexivity | reflexivity].
  unfold bind at 1.
  destruct (StrategyType_eqb _ _); [reflexivity |].
  unfold ret at 1. unfold bind.
  rewrite rollingUpdate_perform by (lia || assumption).
  now destruct (perform fails (map deleteForUpdate _) s2 w2) as [[] s3 w3 | |].
Qed.

(** A script whose calls succeed up to one that fails ends at that call,
    with its error and the status as changed by the actions before it. *)
Lemma perform_abort (done rest : list Action) (a : Action)
    (status : StatefulSetStatus) (w : World) :
  succeeded fails (w_log w) done = true ->
  act_fallible a = true ->
  fails (w_log w ++ map act_call done) (act_call a) = true ->
  perform fails (done ++ a :: rest) status w
  = Return (Some (CallFailed (act_call a)))
           (act_before a (fold_left act_step done status))
           (logCalls (map act_call done ++ [act_call a]) w).
Proof.
  revert status w. induction done as [| d done IH]; intros status w Hdone Hfallible Hfails.
  - simpl in *. rewrite app_nil_r in Hfails. now rewrite Hfallible, Hfails.
  - simpl in Hdone. apply andb_true_iff in Hdone. destruct Hdone as [Hd Hdone].
    apply negb_true_iff in Hd. simpl. rewrite Hd.
    rewrite IH; [| exact Hdone | exact Hfallible |].
    + unfold logCalls, logCall. simpl. now rewrite <- app_assoc.
    + simpl. now rewrite <- app_assoc.
Qed.

(** A script on every platform: it does not panic; if it falls through,
    every call was issued and every action applied; if it returns, a call
    failed, after the actions before it and the change that precedes it. *)
Lemma perform_outcome (script : list Action) (status : StatefulSetStatus) (w : World) :
  match perform fails script status w with
  | Next _ status' w' =>
      w_log w' = w_log w ++ map act_call script
      /\ status' = fold_left act_step script status
  | Return err status' w' =>
      exists k a,
        nth_error script k = Some a
        /\ err = Some (CallFailed (act_call a))
        /\ w_log w' = w_log w ++ map act_call (firstn (S k) script)
        /\ status' = act_before a (fold_left act_step (firstn k script) status)
  | Crash => False
  end.
Proof.
  revert status w. induction script as [| a rest IH]; intros status w; simpl.
  - now rewrite app_nil_r.
  - destruct (act_fallible a && fails (w_log w) (act_call a)).
    + exists O, a. simpl. repeat split; reflexivity.
    + specialize (IH (act_step status a) (logCall (act_call a) w)).
      destruct (perform fails rest _ _) as [[] status' w' | err status' w' |];
        [| | exact IH].
      * destruct IH as [Hlog Hst]. split; [| exact Hst].
        rewrite Hlog. simpl. now rewrite <- app_assoc.
      * destruct IH as [k [b [Hk [Herr [Hlog Hst]]]]].
        exists (S k), b. split; [exact Hk |]. split; [exact Herr |].
        split; [| exact Hst].
        rewrite Hlog. simpl. now rewrite <- app_assoc.
Qed.

End Script.

(** ** A pass that a failing call aborts *)

Section AbortedPass.

Variable revisionName : string -> option Template -> Z -> string.
Variable fails : list Call -> Call -> bool.

(** The driver, after the two [ApplyRevision] calls, carries out the script
    of the pass on the counted status. *)
Lemma updateStatefulSet_perform (set : StatefulSet)
    (currentRevision updateRevision : ControllerRevision) (collisionCount : Z)
    (currentSet updateSet : StatefulSet) (pods : list Pod) (w : World) :
  ApplyRevision set currentRevision = Some currentSet ->
  ApplyRevision set updateRevision = Some updateSet ->
  0 <= partitionOf set ->
  let counts := fold_left (tally currentRevision updateRevision) pods
                  (initialStatus set currentRevision updateRevision collisionCount) in
  updateStatefulSet fails set currentRevision updateRevision collisionCount pods w
  = match perform fails
            (driverScript set currentRevision updateRevision currentSet updateSet
                          pods counts) counts w with
    | Next _ status' w' => Finished (Some status') None w'
    | Return err status' w' => Finished (Some status') err w'
    | Crash => Panicked
    end.
Proof.
  intros Hcurrent Hupdate Hpartition counts.
  unfold updateStatefulSet. rewrite Hcurrent, Hupdate.
  fold (initialStatus set currentRevision updateRevision collisionCount).
  rewrite reconcile_perform by exact Hpartition.
  fold counts.
  now destruct (perform fails _ counts w) as [[] s1 w1 | |].
Qed.

(** C4, amended.  A pass that has listed the revisions and settled the
    current and update revision carries out the actions of its script on
    the counted status.  When the calls of the actions [done] succeed and
    the call of the next action fails, the driver hands back, with the error
    of that call, the status as changed by the actions that succeeded (and
    by what the failing action does to the status before its call), and
    [UpdateStatefulSet] returns that error at once, on the platform as the
    driver left it: no status is published in that pass. *)
Theorem aborted_pass_returns_without_publishing
    (set : StatefulSet) (pods : list Pod) (w w1 w2 : World)
    (listed revisions : list ControllerRevision)
    (currentRevision updateRevision : ControllerRevision) (collisionCount : Z)
    (currentSet updateSet : StatefulSet)
    (done rest : list Action) (a : Action) :
  ListRevisions fails set w = (Ok listed, w1) ->
  getStatefulSetRevisions revisionName fails set (SortControllerRevisions listed) w1
  = (Ok (currentRevision, updateRevision, collisionCount, revisions), w2) ->
  ApplyRevision set currentRevision = Some currentSet ->
  ApplyRevision set updateRevision = Some updateSet ->
  0 <= partitionOf set ->
  let counts := fold_left (tally currentRevision updateRevision) pods
                  (initialStatus set currentRevision updateRevision collisionCount) in
  driverScript set currentRevision updateRevision currentSet updateSet pods counts
  = done ++ a :: rest ->
  succeeded fails (w_log w2) done = true ->
  act_fallible a = true ->
  fails (w_log w2 ++ map act_call done) (act_call a) = true ->
  let status := act_before a (fold_left act_step done counts) in
  let err := CallFailed (act_call a) in
  let w3 := logCalls (map act_call done ++ [act_call a]) w2 in
  updateStatefulSet fails set currentRevision updateRevision collisionCount pods w2
  = Finished (Some status) (Some err) w3
  /\ UpdateStatefulSet revisionName fails set pods w = (Err err, w3)
  /\ statusWrites (w_log w3) = statusWrites (w_log w).
Proof.
  intros Hlist Hrevs Hcurrent Hupdate Hpartition counts Hscript Hdone Hfallible Hfails
         status err w3.
  assert (Hdrv : updateStatefulSet fails set currentRevision updateRevision
                                   collisionCount pods w2
                 = Finished (Some status) (Some err) w3).
  { rewrite (updateStatefulSet_perform set currentRevision updateRevision collisionCount
               currentSet updateSet pods w2 Hcurrent Hupdate Hpartition).
    cbn zeta. fold counts. rewrite Hscript.
    now rewrite (perform_abort fails done rest a counts w2 Hdone Hfallible Hfails). }
  split; [exact Hdrv |].
  exact (driver_error_ends_the_pass revisionName fails set pods w w1 w2 w3 listed revisions
           currentRevision updateRevision collisionCount (Some status) err
           Hlist Hrevs Hdrv).
Qed.

End AbortedPass.

(** C4, amended, on scenario S3 with the delete of ordinal 1 failing: the
    delete of ordinal 2 has succeeded, CurrentReplicas has been decremented
    for both, from 3 to 1, and the status with that count is handed back by
    the driver but not published. *)
Lemma S3_aborted_pass_returns_the_error :
  let second := healthyPod 1 "web-A-0" in
  let third := healthyPod 2 "web-A-0" in
  let created := mkRevision "web-B-0" 2 0 (Some "B") in
  let w2 := mkWorld [R1; created] [ListControllerRevisions; CreateControllerRevision created] in
  let w3 := logCalls [DeleteStatefulPod third; DeleteStatefulPod second] w2 in
  updateStatefulSet (failDeleteOf 1) S3_set R1 created 0 threeAtR1 w2
  = Finished (Some (mkStatus 2 3 3 1 0 "web-A-0" "web-B-0" (Some 0)))
             (Some (CallFailed (DeleteStatefulPod second))) w3
  /\ UpdateStatefulSet demoName (failDeleteOf 1) S3_set threeAtR1 (mkWorld [R1] [])
     = (Err (CallFailed (DeleteStatefulPod second)), w3)
  /\ statusWrites (w_log w3) = statusWrites (w_log (mkWorld [R1] [])).
Proof.
  intros second third created w2 w3.
  apply (aborted_pass_returns_without_publishing demoName (failDeleteOf 1)
           S3_set threeAtR1 (mkWorld [R1] []) (mkWorld [R1] [ListControllerRevisions]) w2
           [R1] [R1] R1 created 0
           (mkSet "web" 2 false true 3 "A" (rolling 0) 10 publishedR1) S3_set
           [deleteForUpdate third] [deleteForUpdate (healthyPod 0 "web-A-0")]
           (deleteForUpdate second));
    solve [reflexivity | vm_compute; congruence].
Defined.

(** ** Scale-down and the total *)

Section ScaleDownTotal.

Variable fails : list Call -> Call -> bool.
Variable set : StatefulSet.
Variables currentRevision updateRevision : ControllerRevision.

(** The deletes of scale-down leave the total and the ready count alone,
    and decrement the counters of the current and of the update revision
    once for each deleted pod tagged with it. *)
Lemma fold_deleteSurplus (deleted : list Pod) (status : StatefulSetStatus) :
  let status' := fold_left act_step
                   (map (deleteSurplus currentRevision updateRevision) deleted) status in
  Replicas status' = Replicas status
  /\ ReadyReplicas status' = ReadyReplicas status
  /\ CurrentReplicas status'
     = Nat.iter (taggedWith (rev_name currentRevision) deleted) dec32 (CurrentReplicas status)
  /\ UpdatedReplicas status'
     = Nat.iter (taggedWith (rev_name updateRevision) deleted) dec32 (UpdatedReplicas status).
Proof.
  cbn zeta. revert status. induction deleted as [| pod rest IH]; intros status.
  - simpl. auto.
  - cbn [map fold_left]. destruct (IH (act_step status
                 (deleteSurplus currentRevision updateRevision pod)))
      as [Htotal [Hready [Hcurrent Hupdated]]].
    rewrite Htotal, Hready, Hcurrent, Hupdated.
    unfold taggedWith. cbn [filter].
    unfold act_step, deleteSurplus, counted. cbn [act_before act_after].
    destruct (String.eqb (getPodRevision pod) (rev_name currentRevision)),
             (String.eqb (getPodRevision pod) (rev_name updateRevision));
      cbn [List.length Replicas ReadyReplicas CurrentReplicas UpdatedReplicas
           onCurrentReplicas onUpdatedReplicas];
      rewrite <- ?Nat.iter_succ_r; auto.
Qed.

(** C2, amended.  The scale-down loop, started within the list, does not
    panic.  Its targets are the pods it deletes, from the end of the list.
    Every delete that succeeded has decremented CurrentReplicas when the
    pod is tagged with the current revision and UpdatedReplicas when it is
    tagged with the update revision; the total, Replicas, and ReadyReplicas
    are as they were before the loop, whether the loop falls through or a
    delete fails. *)
Theorem scaleDown_keeps_the_total
    (pods : list Pod) (n : nat) (needToDelete : Z)
    (status : StatefulSetStatus) (w : World) :
  (n <= List.length pods)%nat ->
  let targets := scaleDownTargets pods n needToDelete in
  let after := fun (deleted : list Pod) (status' : StatefulSetStatus) =>
    Replicas status' = Replicas status
    /\ ReadyReplicas status' = ReadyReplicas status
    /\ CurrentReplicas status'
       = Nat.iter (taggedWith (rev_name currentRevision) deleted) dec32
                  (CurrentReplicas status)
    /\ UpdatedReplicas status'
       = Nat.iter (taggedWith (rev_name updateRevision) deleted) dec32
                  (UpdatedReplicas status) in
  match scaleDown fails set currentRevision updateRevision pods n needToDelete status w with
  | Next _ status' w' =>
      w_log w' = w_log w ++ map DeleteStatefulPod targets
      /\ after targets status'
  | Return err status' w' =>
      exists k pod,
        nth_error targets k = Some pod
        /\ err = Some (CallFailed (DeleteStatefulPod pod))
        /\ w_log w' = w_log w ++ map DeleteStatefulPod (firstn (S k) targets)
        /\ after (firstn k targets) status'
  | Crash => False
  end.
Proof.
  intros Hn targets after.
  rewrite (scaleDown_perform fails set currentRevision updateRevision pods n needToDelete
             status w Hn).
  fold targets.
  pose proof (perform_outcome fails
                (map (deleteSurplus currentRevision updateRevision) targets) status w) as H.
  destruct (perform fails _ status w) as [[] status' w' | err status' w' |];
    [| | exact H].
  - destruct H as [Hlog Hst]. split.
    + rewrite Hlog, map_map. reflexivity.
    + subst status'. apply fold_deleteSurplus.
  - destruct H as [k [a [Hk [Herr [Hlog Hst]]]]].
    rewrite nth_error_map in Hk.
    destruct (nth_error targets k) as [pod |] eqn:Hpod; [| discriminate].
    injection Hk as <-. exists k, pod.
    split; [exact Hpod |]. split; [exact Herr |]. split.
    + rewrite Hlog, firstn_map, map_map. reflexivity.
    + subst status'. rewrite firstn_map. apply fold_deleteSurplus.
Qed.

End ScaleDownTotal.

(** C2, amended, on the scale-down of scenario S2: one delete, at ordinal
    2; Replicas is 3 before and after it, CurrentReplicas and
    UpdatedReplicas go from 3 to 2. *)
Lemma S2_scale_down_discounts_the_revision :
  let third := healthyPod 2 "web-A-0" in
  let counts := mkStatus 2 3 3 3 3 "web-A-0" "web-A-0" (Some 0) in
  match scaleDown noFailure S2_set R1 R1 threeAtR1 3 1 counts
                  (mkWorld [R1] [ListControllerRevisions]) with
  | Next _ status' w' =>
      w_log w' = [ListControllerRevisions] ++ map DeleteStatefulPod [third]
      /\ Replicas status' = 3
      /\ ReadyReplicas status' = 3
      /\ CurrentReplicas status' = Nat.iter 1 dec32 3
      /\ UpdatedReplicas status' = Nat.iter 1 dec32 3
  | Return err status' w' =>
      exists k pod,
        nth_error [third] k = Some pod
        /\ err = Some (CallFailed (DeleteStatefulPod pod))
        /\ w_log w' = [ListControllerRevisions]
                      ++ map DeleteStatefulPod (firstn (S k) [third])
        /\ Replicas status' = 3
        /\ ReadyReplicas status' = 3
        /\ CurrentReplicas status'
           = Nat.iter (taggedWith "web-A-0" (firstn k [third])) dec32 3
        /\ UpdatedReplicas status'
           = Nat.iter (taggedWith "web-A-0" (firstn k [third])) dec32 3
  | Crash => False
  end.
Proof.
  intros third counts.
  apply (scaleDown_keeps_the_total noFailure S2_set R1 R1 threeAtR1 3 1 counts
           (mkWorld [R1] [ListControllerRevisions])).
  simpl. lia.
Defined.

(** The same, computed. *)
Example scale_down_of_S2_run :
  scaleDown noFailure S2_set R1 R1 threeAtR1 3 1
            (mkStatus 2 3 3 3 3 "web-A-0" "web-A-0" (Some 0))
            (mkWorld [R1] [ListControllerRevisions])
  = Next tt (mkStatus 2 3 3 2 2 "web-A-0" "web-A-0" (Some 0))
         (mkWorld [R1] [ListControllerRevisions;
                        DeleteStatefulPod (healthyPod 2 "web-A-0")]).
Proof. reflexivity. Qed.
